(** * Caption editor: the caption store and the WebVTT encoder of [src/App.js]

    A shallow embedding of the state and the event handlers of the [App]
    component (the caption list, the draft caption, the edit cursor) and of
    the track encoder ([generateVTT], [formatTime]), with the properties of
    the caption store and of the encoder proved about them.

    Conventions of the embedding:
    - a JavaScript Number is an IEEE 754 binary64 value, [spec_float] of the
      Standard Library with [prec = 53] and [emax = 1024];
    - a JavaScript string is a [string] whose characters are the code units
      (code units below 256 only);
    - [undefined] is a constructor of [value]; a caption object is a record
      of three values; an array is a list of slots, a slot being a hole or
      an element;
    - a React state update followed by the re-render is one state
      transition; a [toast] call is returned as the notification of the
      transition; a handler that throws a [TypeError] returns [None];
    - an effect runs after the render that follows the state update, and
      does not run when that render throws. *)

From Stdlib Require Import ZArith Ascii String List Bool Lia.
From Stdlib Require Import Floats.SpecFloat.
From stdpp Require Import base tactics option list strings pretty.

Open Scope string_scope.
Open Scope Z_scope.

(** ** Numbers *)

Module Number.

Definition number := spec_float.

Definition prec : Z := 53.
Definition emax : Z := 1024.

Definition NaN : number := S754_nan.

(** The Number value of the integer [z]. *)
Definition of_Z (z : Z) : number := binary_normalize prec emax z 0 false.

(** The Number value (round to nearest, ties to even) of the rational
    [(-1)^s * n / d], for [0 <= n] and [0 < d]. The quotient of the two
    integers is rounded once, by the division of the Standard Library
    applied to the integers as mantissas of exponent 0. *)
Definition of_ratio (s : bool) (n d : Z) : number :=
  match n, d with
  | Zpos n', Zpos d' =>
      SFdiv prec emax (S754_finite s n' 0) (S754_finite false d' 0)
  | Z0, Zpos _ => S754_zero s
  | _, _ => NaN
  end.

Definition mul (x y : number) : number := SFmul prec emax x y.

(** The relational operators of ECMAScript on Numbers: [IsLessThan] is
    undefined when an operand is NaN, and every operator is then false. *)
Definition lt (x y : number) : bool :=
  match SFcompare x y with Some Lt => true | _ => false end.
Definition gt (x y : number) : bool := lt y x.
Definition ge (x y : number) : bool :=
  match SFcompare x y with Some Lt | None => false | Some _ => true end.
Definition le (x y : number) : bool :=
  match SFcompare y x with Some Lt | None => false | Some _ => true end.

Definition is_nan (x : number) : bool :=
  match x with S754_nan => true | _ => false end.

(** [ToIntegerOrInfinity] on a finite Number: truncation towards zero. *)
Definition truncate (x : number) : option Z :=
  match x with
  | S754_zero _ => Some 0
  | S754_finite s m e =>
      let a := match e with
               | Zneg p => Z.shiftr (Zpos m) (Zpos p)
               | _ => Z.shiftl (Zpos m) e
               end in
      Some (if s then - a else a)
  | _ => None
  end.

(** [abs x > z] on the exact value of [x], for a non-negative integer [z]. *)
Definition abs_gt_Z (x : number) (z : Z) : bool :=
  match x with
  | S754_zero _ => false
  | S754_finite _ m e =>
      match e with
      | Zneg p => Z.shiftl z (Zpos p) <? Zpos m
      | _ => z <? Z.shiftl (Zpos m) e
      end
  | S754_infinity _ => true
  | S754_nan => false
  end.

(** The order of [SFcompare] on the Numbers other than NaN is the
    lexicographic order of these triples: the class (minus infinity,
    negative, zero, positive, infinity), then the exponent and the
    mantissa, both negated for a negative Number. *)
Definition rank (x : number) : Z * Z * Z :=
  match x with
  | S754_zero _ => (0, 0, 0)
  | S754_infinity s => (if s then -2 else 2, 0, 0)
  | S754_nan => (0, 0, 0)
  | S754_finite s m e => if s then (-1, - e, Zneg m) else (1, e, Zpos m)
  end.

Definition lex_lt (a b : Z * Z * Z) : Prop :=
  a.1.1 < b.1.1
  \/ (a.1.1 = b.1.1
      /\ (a.1.2 < b.1.2 \/ (a.1.2 = b.1.2 /\ a.2 < b.2))).

#[export] Instance lex_lt_dec (a b : Z * Z * Z) : Decision (lex_lt a b).
Proof. unfold lex_lt. apply _. Defined.

End Number.

Import Number.

(** ** Strings and the conversions between strings and Numbers *)

Module Text.

Definition code (c : ascii) : nat := nat_of_ascii c.

Definition is_digit (c : ascii) : bool :=
  ((48 <=? code c) && (code c <=? 57))%nat.

Definition digit_value (c : ascii) : Z := Z.of_nat (code c) - 48.

(** [WhiteSpace] and [LineTerminator] code units below 256: TAB, LF, VT,
    FF, CR, SP and NBSP. *)
Definition is_white (c : ascii) : bool :=
  bool_decide (code c ∈ [9; 10; 11; 12; 13; 32; 160]%nat).

Fixpoint trim_start (l : list ascii) : list ascii :=
  match l with
  | c :: r => if is_white c then trim_start r else l
  | [] => []
  end.

Definition trim (l : list ascii) : list ascii :=
  rev (trim_start (rev (trim_start l))).

(** The longest prefix of decimal digits, and what follows it. *)
Fixpoint span_digits (l : list ascii) : list ascii * list ascii :=
  match l with
  | c :: r =>
      if is_digit c then let '(ds, r') := span_digits r in (c :: ds, r')
      else ([], l)
  | [] => ([], [])
  end.

Definition digits_value (ds : list ascii) : Z :=
  fold_left (fun acc c => 10 * acc + digit_value c) ds 0.

Fixpoint strip_prefix (p l : list ascii) : option (list ascii) :=
  match p, l with
  | [], _ => Some l
  | a :: p', b :: l' => if Ascii.eqb a b then strip_prefix p' l' else None
  | _ :: _, [] => None
  end.

(** The Number value of [(-1)^s * n * 10^k], for [0 <= n]. *)
Definition of_decimal (s : bool) (n k : Z) : number :=
  if 0 <=? k then of_ratio s (n * 10 ^ k) 1 else of_ratio s n (10 ^ (- k)).

(** [ExponentPart], when one starts [l]: its value and what follows it;
    without one, 0 and [l] itself. *)
Definition exponent_part (l : list ascii) : Z * list ascii :=
  match l with
  | c :: r =>
      if Ascii.eqb c "e" || Ascii.eqb c "E" then
        let '(neg, r1) :=
          match r with
          | s :: r' =>
              if Ascii.eqb s "-" then (true, r')
              else if Ascii.eqb s "+" then (false, r')
              else (false, r)
          | [] => (false, r)
          end in
        match span_digits r1 with
        | ([], _) => (0, l)
        | (ds, r2) =>
            ((if neg : bool then - digits_value ds else digits_value ds), r2)
        end
      else (0, l)
  | [] => (0, l)
  end.

(** The longest prefix of [l] that is a [StrUnsignedDecimalLiteral]: its
    Number value under the sign [s], and what follows it. *)
Definition unsigned_decimal (s : bool) (l : list ascii)
  : option (number * list ascii) :=
  match strip_prefix (list_ascii_of_string "Infinity") l with
  | Some r => Some (S754_infinity s, r)
  | None =>
      let '(ip, r1) := span_digits l in
      let with_fraction fp r2 :=
        let '(e, r3) := exponent_part r2 in
        Some (of_decimal s (digits_value (ip ++ fp))
                (e - Z.of_nat (length fp)), r3) in
      match r1 with
      | c :: r1' =>
          if Ascii.eqb c "." then
            let '(fp, r2) := span_digits r1' in
            match ip, fp with
            | [], [] => None
            | _, _ => with_fraction fp r2
            end
          else match ip with [] => None | _ => with_fraction [] r1 end
      | [] => match ip with [] => None | _ => with_fraction [] r1 end
      end
  end.

(** The longest prefix of [l] that is a [StrDecimalLiteral]. *)
Definition decimal_literal (l : list ascii) : option (number * list ascii) :=
  match l with
  | c :: r =>
      if Ascii.eqb c "-" then unsigned_decimal true r
      else if Ascii.eqb c "+" then unsigned_decimal false r
      else unsigned_decimal false l
  | [] => None
  end.

(** [parseFloat] on a string. *)
Definition parseFloat (s : string) : number :=
  match decimal_literal (trim_start (list_ascii_of_string s)) with
  | Some (x, _) => x
  | None => NaN
  end.

Definition radix_digit (radix : Z) (c : ascii) : option Z :=
  let n := code c in
  let v :=
    if ((48 <=? n) && (n <=? 57))%nat then Some (Z.of_nat n - 48)
    else if ((97 <=? n) && (n <=? 102))%nat then Some (Z.of_nat n - 87)
    else if ((65 <=? n) && (n <=? 70))%nat then Some (Z.of_nat n - 55)
    else None in
  match v with
  | Some d => if d <? radix then Some d else None
  | None => None
  end.

Fixpoint radix_value (radix : Z) (acc : Z) (l : list ascii) : option Z :=
  match l with
  | [] => Some acc
  | c :: r =>
      match radix_digit radix c with
      | Some d => radix_value radix (radix * acc + d) r
      | None => None
      end
  end.

(** [NonDecimalIntegerLiteral]: [0x], [0o] or [0b] and at least one digit
    of that radix, and nothing else. *)
Definition non_decimal_literal (l : list ascii) : option number :=
  match l with
  | z :: k :: (_ :: _) as ds =>
      if Ascii.eqb z "0" then
        let radix :=
          if Ascii.eqb k "x" || Ascii.eqb k "X" then Some 16
          else if Ascii.eqb k "o" || Ascii.eqb k "O" then Some 8
          else if Ascii.eqb k "b" || Ascii.eqb k "B" then Some 2
          else None in
        match radix with
        | Some b => of_Z <$> radix_value b 0 ds
        | None => None
        end
      else None
  | _ => None
  end.

(** [StringToNumber]: the whole string, white space trimmed at both ends,
    is empty, a [StrDecimalLiteral] or a [NonDecimalIntegerLiteral]. *)
Definition StringToNumber (s : string) : number :=
  match trim (list_ascii_of_string s) with
  | [] => S754_zero false
  | l =>
      match non_decimal_literal l with
      | Some x => x
      | None =>
          match decimal_literal l with
          | Some (x, []) => x
          | _ => NaN
          end
      end
  end.

(** [String.prototype.padStart]. *)
Definition padStart (s : string) (maxLength : nat) (fillString : string)
  : string :=
  let stringLength := String.length s in
  if (maxLength <=? stringLength)%nat then s
  else if String.eqb fillString "" then s
  else
    let fillLen := (maxLength - stringLength)%nat in
    let filler :=
      take fillLen
        (concat (replicate fillLen (list_ascii_of_string fillString))) in
    string_of_list_ascii filler +:+ s.

End Text.

Import Text.

(** ** Values held by the fields of a caption *)

(** The text fields of the form deliver strings; a property that is absent
    reads as [undefined]. *)
Inductive value :=
  | undefined
  | Str (s : string).

Definition ToBoolean (v : value) : bool :=
  match v with
  | undefined => false
  | Str s => negb (String.eqb s "")
  end.

Definition ToString (v : value) : string :=
  match v with
  | undefined => "undefined"
  | Str s => s
  end.

(** What the arithmetic operators apply to an operand. *)
Class ToNumber (A : Type) := to_number : A -> number.

#[export] Instance number_ToNumber : ToNumber number := fun x => x.
#[export] Instance string_ToNumber : ToNumber string := StringToNumber.
#[export] Instance value_ToNumber : ToNumber value :=
  fun v => match v with undefined => NaN | Str s => StringToNumber s end.

(** The global [parseFloat]: [ToString] of the argument, then the longest
    decimal literal that starts it. *)
Definition parseFloat (v : value) : number := Text.parseFloat (ToString v).

(** ** Arrays *)

(** A position of an array is a hole (no property at that index) or an
    element; an element may be [undefined], which is [None]. *)
Inductive slot (A : Type) :=
  | hole
  | elem (v : option A).

Arguments hole {A}.
Arguments elem {A} v.

Module JSArray.
Section Operations.
Context {A : Type}.

(** [a[i]]. *)
Definition get (a : list (slot A)) (i : nat) : option A :=
  match a !! i with
  | Some (elem v) => v
  | _ => None
  end.

(** The elements that [some], [filter] and [forEach] visit: the indices
    that are present, in ascending order. *)
Fixpoint entries_from (k : nat) (a : list (slot A))
  : list (nat * option A) :=
  match a with
  | [] => []
  | hole :: r => entries_from (S k) r
  | elem v :: r => (k, v) :: entries_from (S k) r
  end.

Definition entries (a : list (slot A)) : list (nat * option A) :=
  entries_from 0 a.

(** [[...a]]: the iterator of an array yields [undefined] at a hole. *)
Definition spread (a : list (slot A)) : list (slot A) :=
  (fun s => match s with hole => elem None | elem v => elem v end) <$> a.

(** [a[i] = v], on an array: beyond the length, the array is extended
    and the positions in between are holes. *)
Definition set (a : list (slot A)) (i : nat) (v : option A)
  : list (slot A) :=
  if (i <? length a)%nat then <[i := elem v]> a
  else a ++ replicate (i - length a) hole ++ [elem v].

(** [a.some(cb)], for a callback that may throw: the first element for
    which the callback is true ends the iteration. *)
Fixpoint some_entries (cb : option A -> nat -> option bool)
    (es : list (nat * option A)) : option bool :=
  match es with
  | [] => Some false
  | (k, v) :: r =>
      b ← cb v k;
      if b : bool then Some true else some_entries cb r
  end.

Definition some (cb : option A -> nat -> option bool) (a : list (slot A))
  : option bool :=
  some_entries cb (entries a).

(** [a.filter(cb)]: the result has no holes. *)
Definition filter (cb : option A -> nat -> bool) (a : list (slot A))
  : list (slot A) :=
  (fun e => elem (snd e))
    <$> List.filter (fun e => cb (snd e) (fst e)) (entries a).

(** [a.forEach(cb)], for a callback that updates an accumulator and may
    throw. *)
Fixpoint forEach_entries {S : Type} (cb : S -> option A -> nat -> option S)
    (es : list (nat * option A)) (acc : S) : option S :=
  match es with
  | [] => Some acc
  | (k, v) :: r => acc' ← cb acc v k; forEach_entries cb r acc'
  end.

Definition forEach {S : Type} (cb : S -> option A -> nat -> option S)
    (a : list (slot A)) (acc : S) : option S :=
  forEach_entries cb (entries a) acc.

End Operations.
End JSArray.

(** ** The state of the component *)

Record Caption := mkCaption {
  text : value;
  start : value;
  end_ : value
}.

Record App := mkApp {
  videoURL : string;
  captions : list (slot Caption);
  (** [None] is [undefined]. *)
  currentCaption : option Caption;
  videoError : bool;
  (** [None] is [null]. *)
  editingIndex : option nat
}.

Definition blank : Caption :=
  {| text := Str ""; start := Str ""; end_ := Str "" |}.

(** The state of the first render. *)
Definition initial : App :=
  {| videoURL := ""; captions := []; currentCaption := Some blank;
     videoError := false; editingIndex := None |}.

Inductive toast :=
  | toast_error (msg : string)
  | toast_success (msg : string).

Inductive field_name := name_text | name_start | name_end.

(** ** The handlers *)

(** [setCurrentCaption((prev) => ({ ...prev, [name]: value }))]: spreading
    [undefined] gives no property. *)
Definition handleCaptionChange (name : field_name) (v : string) (st : App)
  : App :=
  let prev :=
    match currentCaption st with
    | Some c => c
    | None => {| text := undefined; start := undefined; end_ := undefined |}
    end in
  let next :=
    match name with
    | name_text => {| text := Str v; start := start prev; end_ := end_ prev |}
    | name_start => {| text := text prev; start := Str v; end_ := end_ prev |}
    | name_end => {| text := text prev; start := start prev; end_ := Str v |}
    end in
  {| videoURL := videoURL st; captions := captions st;
     currentCaption := Some next; videoError := videoError st;
     editingIndex := editingIndex st |}.

(** The callback of [captions.some] in [addOrUpdateCaption]; reading
    [caption.start] of an [undefined] element throws. *)
Definition overlapsWith (editingIndex : option nat) (startTime endTime : number)
    (caption : option Caption) (index : nat) : option bool :=
  if bool_decide (Some index ≠ editingIndex) then
    c ← caption;
    Some ((ge startTime (parseFloat (start c))
           && lt startTime (parseFloat (end_ c)))
          || (gt endTime (parseFloat (start c))
              && le endTime (parseFloat (end_ c)))
          || (le startTime (parseFloat (start c))
              && ge endTime (parseFloat (end_ c))))
  else Some false.

Definition isOverlapping (st : App) (startTime endTime : number) : option bool :=
  JSArray.some (overlapsWith (editingIndex st) startTime endTime) (captions st).

Definition msg_fill : string := "Please fill all fields.".
Definition msg_range : string := "Start time must be less than end time.".
Definition msg_overlap : string :=
  "The specified time range overlaps with an existing caption.".
Definition msg_added : string := "Caption added successfully!".
Definition msg_updated : string := "Caption updated successfully!".
Definition msg_deleted : string := "Caption deleted successfully!".

(** [addOrUpdateCaption]: [None] when it throws a [TypeError] (the draft is
    [undefined], or an element that is compared is), and otherwise the next
    state and the notification. *)
Definition addOrUpdateCaption (st : App) : option (App * toast) :=
  c ← currentCaption st;
  if negb (ToBoolean (text c)) || negb (ToBoolean (start c))
     || negb (ToBoolean (end_ c))
  then Some (st, toast_error msg_fill)
  else
    let startTime := parseFloat (start c) in
    let endTime := parseFloat (end_ c) in
    if ge startTime endTime then Some (st, toast_error msg_range)
    else
      overlapping ← isOverlapping st startTime endTime;
      if overlapping : bool then Some (st, toast_error msg_overlap)
      else
        match editingIndex st with
        | Some i =>
            let updatedCaptions :=
              JSArray.set (JSArray.spread (captions st)) i (Some c) in
            Some ({| videoURL := videoURL st; captions := updatedCaptions;
                     currentCaption := Some blank;
                     videoError := videoError st; editingIndex := None |},
                  toast_success msg_updated)
        | None =>
            Some ({| videoURL := videoURL st;
                     captions :=
                       JSArray.spread (captions st) ++ [elem (Some c)];
                     currentCaption := Some blank;
                     videoError := videoError st;
                     editingIndex := editingIndex st |},
                  toast_success msg_added)
        end.

Definition handleEditCaption (index : nat) (st : App) : App :=
  {| videoURL := videoURL st; captions := captions st;
     currentCaption := JSArray.get (captions st) index;
     videoError := videoError st; editingIndex := Some index |}.

Definition handleDeleteCaption (index : nat) (st : App) : App * toast :=
  let updatedCaptions :=
    JSArray.filter (fun _ idx => bool_decide (idx ≠ index)) (captions st) in
  ({| videoURL := videoURL st; captions := updatedCaptions;
      currentCaption := currentCaption st; videoError := videoError st;
      editingIndex := editingIndex st |},
   toast_success msg_deleted).

(** The effect that depends on [videoURL]. *)
Definition resetEffect (st : App) : App :=
  {| videoURL := videoURL st; captions := [];
     currentCaption := Some blank; videoError := false;
     editingIndex := editingIndex st |}.

(** [setVideoURL(value)] when the debounce delay has passed, and the effect
    when the value is a new one. The effect runs after the render with the
    new value: this is the transition when that render returns;
    [videoURLChange] below is the transition in general. *)
Definition setVideoURL (url : string) (st : App) : App :=
  if String.eqb url (videoURL st) then st
  else
    resetEffect
      {| videoURL := url; captions := captions st;
         currentCaption := currentCaption st; videoError := videoError st;
         editingIndex := editingIndex st |}.

Definition handleVideoError (st : App) : App * toast :=
  ({| videoURL := videoURL st; captions := captions st;
      currentCaption := currentCaption st; videoError := true;
      editingIndex := editingIndex st |},
   toast_error "Failed to load the video. Please check the URL.").

(** ** Intervals *)

Definition startOf (c : Caption) : number := parseFloat (start c).
Definition endOf (c : Caption) : number := parseFloat (end_ c).

(** The half-open intervals [[s1, e1)] and [[s2, e2)] intersect:
    [s1 < e2 && s2 < e1], with the comparison of Numbers. *)
Definition intersects (s1 e1 s2 e2 : number) : bool := lt s1 e2 && lt s2 e1.

(** The caption [c] is an element of the array [a], at index [i]. *)
Definition stored_at (a : list (slot Caption)) (i : nat) (c : Caption) : Prop :=
  a !! i = Some (elem (Some c)).

(** The caption passes the checks that [addOrUpdateCaption] makes on the
    draft alone: no field is empty, and [start >= end] is false. *)
Definition committable (c : Caption) : Prop :=
  ToBoolean (text c) = true /\ ToBoolean (start c) = true
  /\ ToBoolean (end_ c) = true /\ ge (startOf c) (endOf c) = false.

Definition disjoint (c1 c2 : Caption) : Prop :=
  intersects (startOf c1) (endOf c1) (startOf c2) (endOf c2) = false.

Definition pairwise_disjoint (a : list (slot Caption)) : Prop :=
  forall i j ci cj,
    i <> j -> stored_at a i ci -> stored_at a j cj -> disjoint ci cj.

Definition store_invariant (a : list (slot Caption)) : Prop :=
  (forall i c, stored_at a i c -> committable c) /\ pairwise_disjoint a.

(** A field that the first check of [addOrUpdateCaption] rejects. *)
Definition is_empty (v : value) : Prop := v = undefined \/ v = Str "".

Definition missing_field (c : Caption) : Prop :=
  is_empty (text c) \/ is_empty (start c) \/ is_empty (end_ c).

(** ** The track encoder *)

Module Date.

(** The time value of a Date object, in milliseconds; [None] is NaN, the
    time value of an invalid date. *)
Definition t := option Z.

Definition msPerSecond : Z := 1000.
Definition msPerMinute : Z := 60000.
Definition msPerHour : Z := 3600000.
Definition msPerDay : Z := 86400000.

(** [TimeClip]: NaN for a Number that is not finite or beyond 8.64e15
    in absolute value, and the Number truncated to an integer otherwise. *)
Definition TimeClip (time : number) : t :=
  if abs_gt_Z time 8640000000000000 then None else truncate time.

(** [new Date(value)] for a Number. *)
Definition new (v : number) : t := TimeClip v.

(** The getters return NaN ([None]) on an invalid date. Division and
    remainder of [Z] round towards minus infinity, as [floor] and
    [modulo] of ECMAScript do. *)
Definition getUTCHours (d : t) : option Z :=
  (fun tv => (tv / msPerHour) mod 24) <$> d.
Definition getUTCMinutes (d : t) : option Z :=
  (fun tv => (tv / msPerMinute) mod 60) <$> d.
Definition getUTCSeconds (d : t) : option Z :=
  (fun tv => (tv / msPerSecond) mod 60) <$> d.
Definition getUTCMilliseconds (d : t) : option Z :=
  (fun tv => tv mod msPerSecond) <$> d.

End Date.

(** [String(x)] for what a getter of [Date] returns: NaN or an integer. *)
Definition String_ (x : option Z) : string :=
  match x with
  | None => "NaN"
  | Some z => pretty z
  end.

Definition formatTime {A : Type} `{ToNumber A} (seconds : A) : string :=
  let date := Date.new (mul (to_number seconds) (of_Z 1000)) in
  let hh := padStart (String_ (Date.getUTCHours date)) 2 "0" in
  let mm := padStart (String_ (Date.getUTCMinutes date)) 2 "0" in
  let ss := padStart (String_ (Date.getUTCSeconds date)) 2 "0" in
  let ms := padStart (String_ (Date.getUTCMilliseconds date)) 3 "0" in
  hh +:+ ":" +:+ mm +:+ ":" +:+ ss +:+ "." +:+ ms.

Definition newline : string := String (ascii_of_nat 10) "".

(** The callback of [captions.forEach] in [generateVTT]: [vtt += ...]. *)
Definition appendCue (vtt : string) (caption : option Caption) (index : nat)
  : option string :=
  c ← caption;
  let startTime := formatTime (start c) in
  let endTime := formatTime (end_ c) in
  Some (vtt +:+ pretty (index + 1)%nat +:+ newline
            +:+ startTime +:+ " --> " +:+ endTime +:+ newline
            +:+ ToString (text c) +:+ newline +:+ newline).

(** [generateVTT], up to the object URL: the text [vtt] that the Blob
    holds, or [None] when the callback throws on an [undefined] element. *)
Definition generateVTT (captions : list (slot Caption)) : option string :=
  JSArray.forEach appendCue captions ("WEBVTT" +:+ newline +:+ newline).

(** The string is made of [n] decimal digits. *)
Definition decimal_digits (n : nat) (s : string) : Prop :=
  String.length s = n /\ forallb is_digit (list_ascii_of_string s) = true.

Definition decimal_digitsb (n : nat) (s : string) : bool :=
  (String.length s =? n)%nat && forallb is_digit (list_ascii_of_string s).

(** The encoding in the words of the specification: the header line and a
    blank line, then one block for each caption, in the order of the list:
    the position counted from 1, the time range, the text, and a blank
    line. *)
Definition cueBlock (position : nat) (c : Caption) : list string :=
  [ pretty (position + 1)%nat;
    formatTime (start c) +:+ " --> " +:+ formatTime (end_ c);
    ToString (text c) ].

Definition unlines (ls : list string) : string :=
  fold_right (fun l rest => l +:+ newline +:+ rest) "" ls.

Definition encode (cs : list Caption) : string :=
  unlines (["WEBVTT"; ""]
           ++ concat (imap (fun i c => cueBlock i c ++ [""]) cs))%list.

(** ** What the component renders *)

(** The state around [App]: the text of the URL field and the timer of the
    debounce. [debounceTimeout] is the timer that is still to fire, with the
    value that its callback has captured; the identifier that the ref keeps
    after the timer has fired, and that [clearTimeout] ignores, is [None]. *)
Record UI := mkUI {
  app : App;
  typedVideoURL : string;
  debounceTimeout : option string
}.

Record Editor := mkEditor {
  textValue : value;
  startValue : value;
  endValue : value;
  buttonLabel : string;
  (** The index that the Edit and Delete buttons of an item pass to the
      handlers, and the text of the item. *)
  items : list (nat * string)
}.

Record View := mkView {
  urlValue : string;
  (** The source of the video and, when there is one, the text of the
      track. *)
  video : option (string * option string);
  errorText : bool;
  editor : option Editor
}.

(** [videoURL && !videoError]. *)
Definition editorShown (st : App) : bool :=
  negb (String.eqb (videoURL st) "") && negb (videoError st).

(** The callback of [captions.map]: reading [caption.start] of an
    [undefined] element throws. *)
Definition renderItem (e : nat * option Caption) : option (nat * string) :=
  c ← e.2;
  Some (e.1, ToString (start c) +:+ "s - " +:+ ToString (end_ c) +:+ "s: "
             +:+ ToString (text c)).

(** The value that [App] returns, or [None] when the evaluation throws a
    [TypeError]: on an [undefined] element of the list, or on an
    [undefined] draft. *)
Definition render (ui : UI) : option View :=
  let st := app ui in
  vid ←
    (if editorShown st then
       track ←
         (if (0 <? length (captions st))%nat
          then Some <$> generateVTT (captions st)
          else Some None);
       Some (Some (videoURL st, track))
     else Some None);
  ed ←
    (if editorShown st then
       c ← currentCaption st;
       its ← mapM renderItem (JSArray.entries (captions st));
       Some (Some {| textValue := text c; startValue := start c;
                     endValue := end_ c;
                     buttonLabel :=
                       match editingIndex st with
                       | Some _ => "Update Caption"
                       | None => "Add Caption"
                       end;
                     items := its |})
     else Some None);
  Some {| urlValue := typedVideoURL ui; video := vid;
          errorText := videoError st; editor := ed |}.

(** Whether the evaluation of [App] throws; the text of the URL field and
    the timer have no part in it. *)
Definition renderThrows (st : App) : bool :=
  match render {| app := st; typedVideoURL := ""; debounceTimeout := None |} with
  | Some _ => false
  | None => true
  end.

(** The state that [setVideoURL(value)] alone leaves, before the effect. *)
Definition withVideoURL (url : string) (st : App) : App :=
  {| videoURL := url; captions := captions st;
     currentCaption := currentCaption st; videoError := videoError st;
     editingIndex := editingIndex st |}.

(** A change of the video URL as the component goes through it:
    [setVideoURL(value)] with a new value, the render with the new value,
    and the effect when that render returns. When the render throws, the
    component is unmounted and the effect does not run: the captions, the
    draft and the error flag are left as they were. *)
Definition videoURLChange (url : string) (st : App) : App :=
  if String.eqb url (videoURL st) then st
  else if renderThrows (withVideoURL url st) then withVideoURL url st
  else resetEffect (withVideoURL url st).

(** ** Events and reachable states *)

Inductive event :=
  | CaptionChange (name : field_name) (v : string)
  | AddOrUpdate
  | EditCaption (index : nat)
  | DeleteCaption (index : nat)
  | VideoURL (url : string)
  | VideoError.

(** A handler that throws leaves the state as it was. *)
Definition step (st : App) (ev : event) : App :=
  match ev with
  | CaptionChange name v => handleCaptionChange name v st
  | AddOrUpdate =>
      match addOrUpdateCaption st with
      | Some (st', _) => st'
      | None => st
      end
  | EditCaption index => handleEditCaption index st
  | DeleteCaption index => fst (handleDeleteCaption index st)
  | VideoURL url => videoURLChange url st
  | VideoError => fst (handleVideoError st)
  end.

Definition run (evs : list event) : App := fold_left step evs initial.

Definition reachable (st : App) : Prop := exists evs, run evs = st.


(** ** Scenarios *)

Definition caption (t s e : string) : Caption :=
  {| text := Str t; start := Str s; end_ := Str e |}.

(** Filling the three fields of the form and pressing the button. *)
Definition submit (t s e : string) : list event :=
  [CaptionChange name_text t; CaptionChange name_start s;
   CaptionChange name_end e; AddOrUpdate].

Definition fill (t s e : string) : list event :=
  [CaptionChange name_text t; CaptionChange name_start s;
   CaptionChange name_end e].

(** Three captions, the third one selected for edition, the first two
    deleted, and the edition committed with a cursor that is stale by
    then: the array is extended and keeps a hole. *)
Definition stale_cursor_run : list event :=
  submit "A" "1" "2" ++ submit "B" "3x" "4" ++ submit "C" "5" "6"
  ++ [EditCaption 2; DeleteCaption 0; DeleteCaption 0]
  ++ submit "D" "7" "8.5e0s".


(** A caption whose start is negative, and one whose start is not a
    number. *)
Definition negative_start_run : list event := submit "Hi" "-5" "3".
Definition unparseable_start_run : list event := submit "Hi" "abc" "5".

(** Two captions, the second one selected for edition. *)
Definition editing_second_run : list event :=
  submit "A" "1" "2" ++ submit "B" "3" "4" ++ [EditCaption 1].

(** One caption selected for edition and deleted, and another one
    submitted while the cursor is still set. *)
Definition edit_deleted_run : list event :=
  submit "A" "1" "2" ++ submit "B" "3" "4"
  ++ [EditCaption 0; DeleteCaption 0] ++ submit "C" "5" "6".

(** A caption selected for edition, a change of the video source, and a
    caption submitted for the new video. *)
Definition edit_then_new_video_run : list event :=
  submit "A" "1" "2" ++ submit "B" "3" "4"
  ++ [EditCaption 1; VideoURL "next.mp4"] ++ submit "C" "5" "6".

(** ** The rest of the component *)

(** The array whose elements are the captions [cs], without a hole. *)
Definition dense (cs : list Caption) : list (slot Caption) :=
  (fun c => elem (Some c)) <$> cs.

Definition initialUI : UI :=
  {| app := initial; typedVideoURL := ""; debounceTimeout := None |}.

(** [handleVideoInputChange]: the text is updated at once, the timer that
    is pending is cleared and a new one is set. *)
Definition handleVideoInputChange (v : string) (ui : UI) : UI :=
  {| app := app ui; typedVideoURL := v; debounceTimeout := Some v |}.

(** The callback of [setTimeout], 500 ms after the last change:
    [setVideoURL(value)], with the render and the effect that follow. *)
Definition timeoutFires (ui : UI) : UI :=
  match debounceTimeout ui with
  | Some v =>
      {| app := videoURLChange v (app ui); typedVideoURL := typedVideoURL ui;
         debounceTimeout := None |}
  | None => ui
  end.

Definition typing (vs : list string) (ui : UI) : UI :=
  fold_left (fun u v => handleVideoInputChange v u) vs ui.

(** *** Sequences of events without a stale cursor *)

(** The Edit button exists for an element of the list only; the event is
    allowed here when, in addition, no deletion and no change of the video
    happens while a caption is being edited. *)
Definition allowed (st : App) (ev : event) : Prop :=
  match ev with
  | EditCaption index => is_Some (JSArray.get (captions st) index)
  | DeleteCaption _ | VideoURL _ => editingIndex st = None
  | _ => True
  end.

Fixpoint allowed_run (st : App) (evs : list event) : Prop :=
  match evs with
  | [] => True
  | ev :: evs' => allowed st ev /\ allowed_run (step st ev) evs'
  end.

Definition well_formed (st : App) : Prop :=
  (exists cs, captions st = dense cs)
  /\ is_Some (currentCaption st)
  /\ (forall i, editingIndex st = Some i -> (i < length (captions st))%nat).

(** *** Scenarios *)

(** Two captions, and the second one edited up to the submission. *)
Definition update_second_run : list event :=
  submit "A" "1" "2" ++ submit "B" "3" "4" ++ [EditCaption 1]
  ++ fill "B" "3" "5".

(** Three captions, the third one selected for edition, the first two
    deleted, and a new draft up to the submission. *)
Definition stale_update_run : list event :=
  submit "A" "1" "2" ++ submit "B" "3" "4" ++ submit "C" "5" "6"
  ++ [EditCaption 2; DeleteCaption 0; DeleteCaption 0] ++ fill "D" "7" "8".

Definition three_captions : list Caption :=
  [caption "A" "1" "2"; caption "B" "3" "4"; caption "C" "5" "6"].

(** A caption whose start is not a number, a caption that its end falls
    in, and the first one selected for edition. *)
Definition edit_nan_run : list event :=
  submit "X" "abc" "5" ++ submit "Y" "1" "6" ++ [EditCaption 0].

(** The list is empty or starts with a white space character. *)
Definition white_or_end (w : list ascii) : Prop :=
  match w with
  | [] => True
  | c :: _ => is_white c = true
  end.

(** The binary64 value of a positive integer below 2^53: the mantissa is
    the integer shifted to 53 bits. *)
Definition normal (p : positive) : number :=
  let d := Zpos (digits2_pos p) in
  S754_finite false (Pos.shiftl p (Z.to_N (53 - d))) (d - 53).

(** The time of day of a whole number of seconds, as [formatTime] writes
    it. *)
Definition clock (n : Z) : string :=
  padStart (pretty ((n / 3600) mod 24)) 2 "0" +:+ ":"
  +:+ padStart (pretty ((n / 60) mod 60)) 2 "0" +:+ ":"
  +:+ padStart (pretty (n mod 60)) 2 "0" +:+ "."
  +:+ "000".
(** * Properties *)

(** ** The order on Numbers *)

Section NumberOrder.

Lemma compare_cont_Eq (p q : positive) :
  Pos.compare_cont Eq p q = (Zpos p ?= Zpos q).
Proof. reflexivity. Qed.

Lemma compare_nan (x y : number) :
  SFcompare x y = None <-> is_nan x = true \/ is_nan y = true.
Proof.
  destruct x as [ ? | [] | | [] ? ?], y as [ ? | [] | | [] ? ?]; simpl;
    split; intros H; try discriminate; auto;
    destruct H; discriminate.
Qed.

Ltac decide_comparison :=
  split;
  (split;
   [ intros Heq; first [ discriminate Heq | lia ]
   | intros Hlt; first [ reflexivity | exfalso; lia ] ]).

Lemma compare_rank (x y : number) :
  is_nan x = false -> is_nan y = false ->
  (SFcompare x y = Some Lt <-> lex_lt (rank x) (rank y))
  /\ (SFcompare x y = Some Gt <-> lex_lt (rank y) (rank x)).
Proof.
  unfold lex_lt.
  destruct x as [ sx | sx | | sx mx ex], y as [ sy | sy | | sy my ey];
    simpl; intros Hx Hy; try discriminate;
    try (destruct sx); try (destruct sy); simpl;
    try decide_comparison;
    rewrite compare_cont_Eq;
    destruct (Z.compare_spec ex ey);
    destruct (Z.compare_spec (Zpos mx) (Zpos my)); simpl;
    decide_comparison.
Qed.

Lemma compare_some (x y : number) (c : comparison) :
  SFcompare x y = Some c -> is_nan x = false /\ is_nan y = false.
Proof.
  intros Hc. destruct (is_nan x) eqn:Hx, (is_nan y) eqn:Hy; auto;
    assert (Hn : SFcompare x y = None) by (apply compare_nan; auto);
    congruence.
Qed.

Lemma lt_true (x y : number) :
  lt x y = true <->
  is_nan x = false /\ is_nan y = false /\ lex_lt (rank x) (rank y).
Proof.
  unfold lt. destruct (SFcompare x y) as [ c | ] eqn:Hc.
  - destruct (compare_some _ _ _ Hc) as [Hx Hy].
    destruct (compare_rank x y Hx Hy) as [Hlt _]. rewrite Hc in Hlt.
    destruct c; (split; [ intros Ht | intros (_ & _ & H) ]);
      first [ discriminate Ht
            | reflexivity
            | apply Hlt in H; discriminate H
            | repeat split; auto; now apply Hlt ].
  - apply compare_nan in Hc. split; [ discriminate | ].
    intros (? & ? & _). destruct Hc; congruence.
Qed.

Lemma ge_true (x y : number) :
  ge x y = true <->
  is_nan x = false /\ is_nan y = false /\ ~ lex_lt (rank x) (rank y).
Proof.
  unfold ge. destruct (SFcompare x y) as [ c | ] eqn:Hc.
  - destruct (compare_some _ _ _ Hc) as [Hx Hy].
    destruct (compare_rank x y Hx Hy) as [Hlt _]. rewrite Hc in Hlt.
    destruct c; (split; [ intros Ht | intros (_ & _ & H) ]);
      first [ discriminate Ht
            | reflexivity
            | exfalso; apply H; now apply Hlt
            | repeat split; auto; intros H; apply Hlt in H; discriminate H ].
  - apply compare_nan in Hc. split; [ discriminate | ].
    intros (? & ? & _). destruct Hc; congruence.
Qed.

Lemma gt_true (x y : number) :
  gt x y = true <->
  is_nan x = false /\ is_nan y = false /\ lex_lt (rank y) (rank x).
Proof. unfold gt. rewrite lt_true. tauto. Qed.

Lemma le_ge (x y : number) : le x y = ge y x.
Proof. reflexivity. Qed.

Lemma gt_lt (x y : number) : gt x y = lt y x.
Proof. reflexivity. Qed.

Lemma le_true (x y : number) :
  le x y = true <->
  is_nan x = false /\ is_nan y = false /\ ~ lex_lt (rank y) (rank x).
Proof. rewrite le_ge, ge_true. tauto. Qed.

Lemma lt_nan_l (x y : number) : is_nan x = true -> lt x y = false.
Proof. intros H. apply not_true_iff_false. rewrite lt_true. intuition congruence. Qed.

Lemma lt_nan_r (x y : number) : is_nan y = true -> lt x y = false.
Proof. intros H. apply not_true_iff_false. rewrite lt_true. intuition congruence. Qed.

Lemma ge_nan_l (x y : number) : is_nan x = true -> ge x y = false.
Proof. intros H. apply not_true_iff_false. rewrite ge_true. intuition congruence. Qed.

Lemma ge_nan_r (x y : number) : is_nan y = true -> ge x y = false.
Proof. intros H. apply not_true_iff_false. rewrite ge_true. intuition congruence. Qed.

Lemma lt_decide (x y : number) :
  is_nan x = false -> is_nan y = false ->
  lt x y = bool_decide (lex_lt (rank x) (rank y)).
Proof.
  intros Hx Hy. apply eq_true_iff_eq.
  rewrite lt_true, bool_decide_eq_true. tauto.
Qed.

Lemma ge_decide (x y : number) :
  is_nan x = false -> is_nan y = false ->
  ge x y = negb (bool_decide (lex_lt (rank x) (rank y))).
Proof.
  intros Hx Hy. apply eq_true_iff_eq.
  rewrite ge_true, negb_true_iff, bool_decide_eq_false. tauto.
Qed.

(** The test of [addOrUpdateCaption] against one stored caption is the
    intersection test, for a draft with [start < end] and a stored
    caption that passed the range check. *)
Lemma containment_is_intersection (s e cs ce : number) :
  lt s e = true -> ge cs ce = false ->
  (ge s cs && lt s ce) || (gt e cs && le e ce) || (le s cs && ge e ce)
  = intersects s e cs ce.
Proof.
  intros Hse Hc. unfold intersects. rewrite !le_ge, !gt_lt.
  apply lt_true in Hse as (Hs & He & Hse).
  destruct (is_nan cs) eqn:Hcs.
  { rewrite (ge_nan_r s cs), (lt_nan_l cs e), (ge_nan_l cs s) by assumption.
    simpl. now rewrite andb_false_r. }
  destruct (is_nan ce) eqn:Hce.
  { rewrite (lt_nan_r s ce), (ge_nan_l ce e), (ge_nan_r e ce) by assumption.
    simpl. now rewrite !andb_false_r. }
  rewrite ge_decide, negb_false_iff, bool_decide_eq_true in Hc by assumption.
  rewrite !lt_decide, !ge_decide by assumption.
  apply eq_true_iff_eq.
  rewrite !orb_true_iff, !andb_true_iff, !negb_true_iff,
    !bool_decide_eq_true, !bool_decide_eq_false.
  unfold lex_lt in *.
  destruct (rank s) as [[? ?] ?], (rank e) as [[? ?] ?],
    (rank cs) as [[? ?] ?], (rank ce) as [[? ?] ?]; simpl in *.
  lia.
Qed.

End NumberOrder.


Lemma ge_false_lt (x y : number) :
  is_nan x = false -> is_nan y = false -> ge x y = false -> lt x y = true.
Proof.
  intros Hx Hy. rewrite ge_decide, lt_decide by assumption.
  now rewrite negb_false_iff.
Qed.

Lemma intersects_sym (s1 e1 s2 e2 : number) :
  intersects s1 e1 s2 e2 = intersects s2 e2 s1 e1.
Proof. unfold intersects. apply andb_comm. Qed.

(** A draft that passed the range check and the test against a stored
    caption does not intersect it. *)
Lemma passed_test_disjoint (s e cs ce : number) :
  ge s e = false -> ge cs ce = false ->
  (ge s cs && lt s ce) || (gt e cs && le e ce) || (le s cs && ge e ce) = false ->
  intersects s e cs ce = false.
Proof.
  intros Hse Hc Ht. destruct (intersects s e cs ce) eqn:Hi; [ | reflexivity ].
  pose proof Hi as Hi'. unfold intersects in Hi'.
  apply andb_true_iff in Hi' as [H1 H2].
  apply lt_true in H1 as (Hs & Hce & _). apply lt_true in H2 as (Hcs & He & _).
  rewrite containment_is_intersection in Ht; auto using ge_false_lt.
  congruence.
Qed.

(** ** Arrays *)

Section ArrayFacts.
Context {A : Type}.
Implicit Types (a : list (slot A)) (v : option A) (i j k : nat).

Lemma elem_of_entries_from k a i v :
  (i, v) ∈ JSArray.entries_from k a <->
  exists j, i = (k + j)%nat /\ a !! j = Some (elem v).
Proof.
  revert k. induction a as [ | s a IH ]; intros k; simpl.
  - split; [ intros H; inversion H | intros (j & _ & H); discriminate ].
  - destruct s as [ | w ].
    + rewrite IH. split.
      * intros (j & -> & H). exists (S j). split; [ lia | assumption ].
      * intros ([ | j ] & -> & H); [ discriminate | ].
        exists j. split; [ lia | assumption ].
    + rewrite elem_of_cons, IH. split.
      * intros [ [= -> ->] | (j & -> & H) ].
        -- exists 0%nat. split; [ lia | reflexivity ].
        -- exists (S j). split; [ lia | assumption ].
      * intros ([ | j ] & -> & H).
        -- left. simpl in H. injection H as ->. f_equal. lia.
        -- right. exists j. split; [ lia | assumption ].
Qed.

Lemma elem_of_entries a i v :
  (i, v) ∈ JSArray.entries a <-> a !! i = Some (elem v).
Proof.
  unfold JSArray.entries. rewrite elem_of_entries_from. split.
  - intros (j & -> & H). assumption.
  - intros H. exists i. split; [ reflexivity | assumption ].
Qed.

Lemma NoDup_entries_from k a : NoDup (JSArray.entries_from k a).*1.
Proof.
  revert k. induction a as [ | [ | w ] a IH ]; intros k; simpl.
  - constructor.
  - apply IH.
  - constructor; [ | apply IH ].
    rewrite list_elem_of_fmap. intros ([i v] & Hk & Hin). simpl in Hk. subst i.
    apply elem_of_entries_from in Hin as (j & Hj & _). lia.
Qed.

Lemma NoDup_filter_keys (p : nat * option A -> bool)
    (es : list (nat * option A)) :
  NoDup es.*1 -> NoDup (List.filter p es).*1.
Proof.
  induction es as [ | e es IH ]; simpl; intros Hnd; [ constructor | ].
  apply NoDup_cons in Hnd as [Hnotin Hnd].
  destruct (p e); simpl; [ constructor | ]; auto.
  rewrite list_elem_of_fmap. intros (e' & He & Hin).
  apply Hnotin. rewrite list_elem_of_fmap. exists e'. split; [ assumption | ].
  apply list_elem_of_In in Hin. apply filter_In in Hin as [Hin _].
  now apply list_elem_of_In.
Qed.

(** An element of [a.filter(cb)] is an element of [a] that the callback
    accepts. *)
Lemma lookup_filter cb a j s :
  JSArray.filter cb a !! j = Some s ->
  exists i v, s = elem v /\ a !! i = Some (elem v) /\ cb v i = true
    /\ List.filter (fun e => cb e.2 e.1) (JSArray.entries a) !! j
       = Some (i, v).
Proof.
  unfold JSArray.filter. rewrite list_lookup_fmap.
  destruct (List.filter _ _ !! j) as [ [i v] | ] eqn:Hj; simpl; [ | discriminate ].
  intros [= <-]. exists i, v. repeat split; auto.
  - apply list_elem_of_lookup_2 in Hj. apply list_elem_of_In in Hj.
    apply filter_In in Hj as [Hin _]. apply list_elem_of_In in Hin.
    now apply elem_of_entries.
  - apply list_elem_of_lookup_2 in Hj. apply list_elem_of_In in Hj.
    now apply filter_In in Hj as [_ Hcb].
Qed.

(** Two positions of [a.filter(cb)] come from two positions of [a]. *)
Lemma lookup_filter_pair cb a j1 j2 s1 s2 :
  j1 <> j2 ->
  JSArray.filter cb a !! j1 = Some s1 ->
  JSArray.filter cb a !! j2 = Some s2 ->
  exists i1 i2 v1 v2,
    i1 <> i2 /\ s1 = elem v1 /\ s2 = elem v2
    /\ a !! i1 = Some (elem v1) /\ a !! i2 = Some (elem v2).
Proof.
  intros Hne H1 H2.
  apply lookup_filter in H1 as (i1 & v1 & -> & Ha1 & _ & Hf1).
  apply lookup_filter in H2 as (i2 & v2 & -> & Ha2 & _ & Hf2).
  exists i1, i2, v1, v2. repeat split; auto.
  intros ->. apply Hne.
  pose proof (NoDup_filter_keys (fun e => cb e.2 e.1) _
                (NoDup_entries_from 0 a)) as Hnd.
  change (JSArray.entries_from 0 a) with (JSArray.entries a) in Hnd.
  apply (NoDup_lookup _ j1 j2 i2 Hnd);
    rewrite list_lookup_fmap; [ now rewrite Hf1 | now rewrite Hf2 ].
Qed.

Lemma lookup_spread a i (x : A) :
  JSArray.spread a !! i = Some (elem (Some x)) <->
  a !! i = Some (elem (Some x)).
Proof.
  unfold JSArray.spread. rewrite list_lookup_fmap.
  destruct (a !! i) as [ [ | w ] | ]; simpl; split; congruence.
Qed.

Lemma length_spread a : length (JSArray.spread a) = length a.
Proof. unfold JSArray.spread. apply length_fmap. Qed.

(** [a[i] = v] and then [a[j]]. *)
Lemma lookup_set a i v j s :
  JSArray.set a i v !! j = Some s ->
  (j = i /\ s = elem v) \/ (j <> i /\ (a !! j = Some s \/ s = hole)).
Proof.
  unfold JSArray.set. destruct (Nat.ltb_spec i (length a)) as [Hlt | Hge].
  - destruct (decide (j = i)) as [-> | Hne].
    + rewrite list_lookup_insert_eq by assumption. intros [= <-]. now left.
    + rewrite list_lookup_insert_ne by auto. intros H. right. auto.
  - destruct (decide (j < length a)%nat) as [Hj | Hj].
    + rewrite lookup_app_l by assumption. intros H. right. split; [ lia | auto ].
    + rewrite lookup_app_r by lia.
      destruct (decide (j - length a < i - length a)%nat) as [Hr | Hr].
      * rewrite lookup_app_l by (rewrite length_replicate; lia).
        intros H. apply lookup_replicate in H as [-> _].
        right. split; [ lia | auto ].
      * rewrite lookup_app_r by (rewrite length_replicate; lia).
        rewrite length_replicate.
        destruct (j - length a - (i - length a))%nat as [ | n ] eqn:Hn;
          simpl; [ | discriminate ].
        intros [= <-]. left. split; [ lia | reflexivity ].
Qed.

Lemma lookup_set_eq a i v : JSArray.set a i v !! i = Some (elem v).
Proof.
  unfold JSArray.set. destruct (Nat.ltb_spec i (length a)) as [Hlt | Hge].
  - now apply list_lookup_insert_eq.
  - rewrite lookup_app_r by lia.
    rewrite lookup_app_r by (rewrite length_replicate; lia).
    rewrite length_replicate. now rewrite Nat.sub_diag.
Qed.

(** [a.some(cb)] is false: the callback is false on every element. *)
Lemma some_false cb a :
  JSArray.some cb a = Some false ->
  forall i v, a !! i = Some (elem v) -> cb v i = Some false.
Proof.
  unfold JSArray.some. intros H i v Hi. apply elem_of_entries in Hi.
  revert H Hi. induction (JSArray.entries a) as [ | [k w] es IH ]; simpl.
  - intros _ H. inversion H.
  - destruct (cb w k) as [ [] | ] eqn:Hcb; simpl; try discriminate.
    intros H Hin. apply elem_of_cons in Hin as [ [= -> ->] | Hin ]; auto.
Qed.

(** [a.some(cb)] for a callback that does not throw on the elements. *)
Lemma some_true cb a :
  (forall i v, a !! i = Some (elem v) -> is_Some (cb v i)) ->
  exists b, JSArray.some cb a = Some b
    /\ (b = true <-> exists i v, a !! i = Some (elem v) /\ cb v i = Some true).
Proof.
  unfold JSArray.some. intros Hcb.
  assert (Hes : forall i v, (i, v) ∈ JSArray.entries a -> is_Some (cb v i)).
  { intros i v H. apply Hcb. now apply elem_of_entries. }
  assert (Hgoal : exists b, JSArray.some_entries cb (JSArray.entries a) = Some b
            /\ (b = true <-> exists i v, (i, v) ∈ JSArray.entries a
                                /\ cb v i = Some true)).
  { clear Hcb. induction (JSArray.entries a) as [ | [k w] es IH ]; simpl.
    - exists false. split; [ reflexivity | ]. split; [ discriminate | ].
      intros (i & v & H & _). inversion H.
    - destruct (Hes k w) as [b Hb]; [ left | ]. rewrite Hb. simpl.
      destruct b.
      + exists true. split; [ reflexivity | ]. split; [ | reflexivity ].
        intros _. exists k, w. split; [ left | assumption ].
      + destruct IH as (b & Hsome & Hiff).
        { intros i v H. apply Hes. now right. }
        exists b. split; [ assumption | ]. rewrite Hiff. split.
        * intros (i & v & Hin & Ht). exists i, v. split; [ now right | assumption ].
        * intros (i & v & Hin & Ht).
          apply elem_of_cons in Hin as [ [= -> ->] | Hin ]; [ congruence | ].
          exists i, v. auto. }
  destruct Hgoal as (b & Hsome & Hiff). exists b. split; [ assumption | ].
  rewrite Hiff. split; intros (i & v & H1 & H2); exists i, v;
    (split; [ now apply elem_of_entries | assumption ]).
Qed.

End ArrayFacts.

(** ** The caption store *)

Lemma disjoint_sym (c1 c2 : Caption) : disjoint c1 c2 -> disjoint c2 c1.
Proof. unfold disjoint. now rewrite intersects_sym. Qed.

Lemma stored_at_add (a : list (slot Caption)) (c cj : Caption) (j : nat) :
  stored_at (JSArray.spread a ++ [elem (Some c)]) j cj ->
  (j = length a /\ cj = c) \/ ((j < length a)%nat /\ stored_at a j cj).
Proof.
  unfold stored_at. intros H.
  destruct (decide (j < length a)%nat) as [Hj | Hj].
  - rewrite lookup_app_l in H by (rewrite length_spread; lia).
    right. split; [ assumption | ]. now apply lookup_spread.
  - rewrite lookup_app_r in H by (rewrite length_spread; lia).
    rewrite length_spread in H.
    destruct (j - length a)%nat as [ | n ] eqn:Hn; simpl in H; [ | discriminate ].
    injection H as <-. left. split; [ lia | reflexivity ].
Qed.

Lemma stored_at_update (a : list (slot Caption)) (k : nat) (c cj : Caption)
    (j : nat) :
  stored_at (JSArray.set (JSArray.spread a) k (Some c)) j cj ->
  (j = k /\ cj = c) \/ (j <> k /\ stored_at a j cj).
Proof.
  unfold stored_at. intros H.
  apply lookup_set in H as [ [-> [= ->]] | [Hne [H | [=]]] ].
  - now left.
  - right. split; [ assumption | ]. now apply lookup_spread.
Qed.

Lemma stored_at_delete (a : list (slot Caption)) (index j : nat) (cj : Caption) :
  stored_at (JSArray.filter (fun _ idx => bool_decide (idx ≠ index)) a) j cj ->
  exists i, i <> index /\ stored_at a i cj.
Proof.
  unfold stored_at. intros H.
  apply lookup_filter in H as (i & v & [= <-] & Ha & Hcb & _).
  exists i. split; [ | assumption ].
  now apply bool_decide_eq_true in Hcb.
Qed.

(** The draft that passes the overlap test is disjoint from every stored
    caption that the test does not skip. *)
Lemma passed_overlap_test (st : App) (c : Caption) :
  ge (startOf c) (endOf c) = false ->
  isOverlapping st (startOf c) (endOf c) = Some false ->
  forall j cj,
    stored_at (captions st) j cj -> Some j <> editingIndex st ->
    committable cj -> disjoint c cj.
Proof.
  intros Hc Hsome j cj Hj Hne (_ & _ & _ & Hcj).
  pose proof (some_false _ _ Hsome j (Some cj) Hj) as Hcb.
  unfold overlapsWith in Hcb. rewrite bool_decide_eq_true_2 in Hcb by assumption.
  simpl in Hcb. injection Hcb as Hcb.
  now apply passed_test_disjoint.
Qed.

(** What a successful [addOrUpdateCaption] does to the caption list. *)
Lemma addOrUpdateCaption_success (st st' : App) (msg : string) :
  addOrUpdateCaption st = Some (st', toast_success msg) ->
  exists c,
    currentCaption st = Some c /\ committable c
    /\ isOverlapping st (startOf c) (endOf c) = Some false
    /\ captions st' =
         match editingIndex st with
         | Some i => JSArray.set (JSArray.spread (captions st)) i (Some c)
         | None => (JSArray.spread (captions st) ++ [elem (Some c)])%list
         end
    /\ currentCaption st' = Some blank /\ editingIndex st' = None.
Proof.
  unfold addOrUpdateCaption.
  destruct (currentCaption st) as [ c | ]; simpl; [ | discriminate ].
  destruct (ToBoolean (text c)) eqn:Ht; simpl; [ | discriminate ].
  destruct (ToBoolean (start c)) eqn:Hs; simpl; [ | discriminate ].
  destruct (ToBoolean (end_ c)) eqn:He; simpl; [ | discriminate ].
  destruct (ge (parseFloat (start c)) (parseFloat (end_ c))) eqn:Hge;
    [ discriminate | ].
  destruct (isOverlapping st _ _) as [ [] | ] eqn:Hov; simpl; try discriminate.
  intros H. exists c.
  destruct (editingIndex st) as [ i | ] eqn:Hei; injection H as <- <-;
    simpl; repeat split; auto.
Qed.

Lemma addOrUpdateCaption_invariant (st st' : App) (t : toast) :
  addOrUpdateCaption st = Some (st', t) ->
  store_invariant (captions st) -> store_invariant (captions st').
Proof.
  intros Hrun [Hvalid Hpair]. destruct t as [ msg | msg ].
  { assert (st' = st) as ->; [ | now split ].
    revert Hrun. unfold addOrUpdateCaption.
    destruct (currentCaption st) as [ c | ]; simpl; [ | discriminate ].
    repeat match goal with
      | |- context [if ?b then _ else _] => destruct b; simpl
      | |- context [isOverlapping ?a ?b ?c] =>
          destruct (isOverlapping a b c) as [ [] | ]; simpl
      | |- context [editingIndex st] => destruct (editingIndex st)
      end; congruence. }
  apply addOrUpdateCaption_success in Hrun
    as (c & Hdraft & Hc & Hov & Hcaps & _ & _).
  pose proof (passed_overlap_test st c (proj2 (proj2 (proj2 Hc))) Hov) as Htest.
  rewrite Hcaps. destruct (editingIndex st) as [ k | ] eqn:Hei.
  - split.
    + intros j cj Hj. apply stored_at_update in Hj as [ [_ ->] | [_ Hj] ]; eauto.
    + intros i j ci cj Hne Hi Hj.
      apply stored_at_update in Hi as [ [-> ->] | [Hik Hi] ];
        apply stored_at_update in Hj as [ [-> ->] | [Hjk Hj] ].
      * congruence.
      * apply (Htest j cj); eauto. congruence.
      * apply disjoint_sym, (Htest i ci); eauto. congruence.
      * eauto.
  - split.
    + intros j cj Hj. apply stored_at_add in Hj as [ [_ ->] | [_ Hj] ]; eauto.
    + intros i j ci cj Hne Hi Hj.
      apply stored_at_add in Hi as [ [-> ->] | [Hik Hi] ];
        apply stored_at_add in Hj as [ [-> ->] | [Hjk Hj] ].
      * congruence.
      * apply (Htest j cj); eauto.
      * apply disjoint_sym, (Htest i ci); eauto.
      * eauto.
Qed.

Lemma handleDeleteCaption_invariant (index : nat) (st : App) :
  store_invariant (captions st) ->
  store_invariant (captions (handleDeleteCaption index st).1).
Proof.
  intros [Hvalid Hpair]. simpl. split.
  - intros j cj Hj. apply stored_at_delete in Hj as (i & _ & Hi). eauto.
  - intros j1 j2 c1 c2 Hne H1 H2.
    destruct (lookup_filter_pair _ _ _ _ _ _ Hne H1 H2)
      as (i1 & i2 & v1 & v2 & Hi & [= <-] & [= <-] & Ha1 & Ha2).
    eapply Hpair; eauto.
Qed.

Lemma store_invariant_nil : store_invariant [].
Proof.
  split; [ intros i c H | intros i j ci cj _ H _ ];
    unfold stored_at in H; now rewrite lookup_nil in H.
Qed.

Lemma step_invariant (st : App) (ev : event) :
  store_invariant (captions st) -> store_invariant (captions (step st ev)).
Proof.
  intros Hinv. destruct ev as [ name v | | index | index | url | ]; simpl.
  - assumption.
  - destruct (addOrUpdateCaption st) as [ [st' t] | ] eqn:Hrun; [ | assumption ].
    eauto using addOrUpdateCaption_invariant.
  - assumption.
  - now apply handleDeleteCaption_invariant.
  - unfold videoURLChange. destruct (String.eqb url (videoURL st));
      [ assumption | ].
    destruct (renderThrows (withVideoURL url st));
      [ assumption | apply store_invariant_nil ].
  - assumption.
Qed.

Lemma reachable_invariant (st : App) :
  reachable st -> store_invariant (captions st).
Proof.
  intros [evs <-]. unfold run.
  assert (H : store_invariant (captions initial)) by apply store_invariant_nil.
  revert H. generalize initial.
  induction evs as [ | ev evs IH ]; intros st0 H; simpl; [ assumption | ].
  apply IH. now apply step_invariant.
Qed.

Lemma ToBoolean_false (v : value) : ToBoolean v = false <-> is_empty v.
Proof.
  unfold is_empty. destruct v as [ | s ]; simpl.
  - split; auto.
  - rewrite negb_false_iff, String.eqb_eq. split.
    + intros ->. now right.
    + intros [ H | H ]; congruence.
Qed.

Lemma missing_field_false (c : Caption) :
  ~ missing_field c <->
  ToBoolean (text c) = true /\ ToBoolean (start c) = true
  /\ ToBoolean (end_ c) = true.
Proof.
  unfold missing_field. rewrite <- !ToBoolean_false.
  destruct (ToBoolean (text c)), (ToBoolean (start c)),
    (ToBoolean (end_ c)); intuition congruence.
Qed.

Lemma missing_field_dec (c : Caption) : missing_field c \/ ~ missing_field c.
Proof.
  rewrite missing_field_false. unfold missing_field.
  rewrite <- !ToBoolean_false.
  destruct (ToBoolean (text c)), (ToBoolean (start c)),
    (ToBoolean (end_ c)); auto.
Qed.

Lemma lt_ge_false (x y : number) : lt x y = true -> ge x y = false.
Proof.
  intros H. apply lt_true in H as (Hx & Hy & H).
  rewrite ge_decide by assumption. now rewrite bool_decide_eq_true_2.
Qed.

Lemma overlapsWith_stored (ei : option nat) (s e : number) (c : Caption)
    (i : nat) :
  Some i <> ei -> lt s e = true -> ge (startOf c) (endOf c) = false ->
  overlapsWith ei s e (Some c) i
  = Some (intersects s e (startOf c) (endOf c)).
Proof.
  intros Hne Hse Hc. unfold overlapsWith.
  rewrite bool_decide_eq_true_2 by assumption. simpl.
  f_equal. now apply containment_is_intersection.
Qed.

Lemma overlapsWith_skipped (ei : option nat) (s e : number)
    (v : option Caption) (i : nat) :
  Some i = ei -> overlapsWith ei s e v i = Some false.
Proof.
  intros Heq. unfold overlapsWith.
  now rewrite bool_decide_eq_false_2 by (intros H; now apply H).
Qed.

(** The overlap test of a draft with [start < end] against a store whose
    compared elements are captions that passed the range check. *)
Lemma isOverlapping_spec (st : App) (s e : number) :
  lt s e = true ->
  (forall i v, captions st !! i = Some (elem v) -> Some i <> editingIndex st ->
     exists c', v = Some c' /\ ge (startOf c') (endOf c') = false) ->
  exists b, isOverlapping st s e = Some b
    /\ (b = true <->
        exists i c', stored_at (captions st) i c' /\ Some i <> editingIndex st
          /\ intersects s e (startOf c') (endOf c') = true).
Proof.
  intros Hse Hstore. unfold isOverlapping.
  destruct (some_true (overlapsWith (editingIndex st) s e) (captions st))
    as (b & Hb & Hiff).
  { intros i v Hi. destruct (decide (Some i = editingIndex st)) as [ Heq | Hne ].
    - rewrite overlapsWith_skipped by assumption. eauto.
    - destruct (Hstore i v Hi Hne) as (c' & -> & Hc').
      rewrite overlapsWith_stored by assumption. eauto. }
  exists b. split; [ assumption | ]. rewrite Hiff. split.
  - intros (i & v & Hi & Ht).
    destruct (decide (Some i = editingIndex st)) as [ Heq | Hne ].
    { rewrite overlapsWith_skipped in Ht by assumption. discriminate. }
    destruct (Hstore i v Hi Hne) as (c' & -> & Hc').
    rewrite overlapsWith_stored in Ht by assumption.
    exists i, c'. repeat split; auto. congruence.
  - intros (i & c' & Hi & Hne & Ht). exists i, (Some c').
    split; [ assumption | ].
    destruct (Hstore i (Some c') Hi Hne) as (c'' & [= <-] & Hc').
    rewrite overlapsWith_stored by assumption. congruence.
Qed.

(** C1. [addOrUpdateCaption] fails with the overlap error exactly when the
    interval of the draft intersects the interval of a stored caption other
    than the one at [editingIndex], two intervals intersecting when
    [s1 < e2 && s2 < e1]; and it succeeds otherwise. This is for a draft
    with no empty field and [start < end], and a store whose elements other
    than the edited one are captions that passed the range check. In
    particular, with the caption from 1 to 3 stored, the draft from 2 to 4
    is rejected with the overlap error and the draft from 3 to 4 is added. *)
Theorem overlap_exactly_when_intersecting :
  (forall (st : App) (c : Caption),
      currentCaption st = Some c ->
      ~ missing_field c ->
      lt (startOf c) (endOf c) = true ->
      (forall i v,
          captions st !! i = Some (elem v) -> Some i <> editingIndex st ->
          exists c', v = Some c' /\ ge (startOf c') (endOf c') = false) ->
      (addOrUpdateCaption st = Some (st, toast_error msg_overlap) <->
       exists i c',
         stored_at (captions st) i c' /\ Some i <> editingIndex st
         /\ intersects (startOf c) (endOf c) (startOf c') (endOf c') = true)
      /\ (addOrUpdateCaption st = Some (st, toast_error msg_overlap)
          \/ exists st' msg,
               addOrUpdateCaption st = Some (st', toast_success msg)))
  /\ (let st := fold_left step (fill "Bye" "2" "4") (run (submit "Hi" "1" "3")) in
      captions st = [elem (Some (caption "Hi" "1" "3"))]
      /\ addOrUpdateCaption st = Some (st, toast_error msg_overlap))
  /\ (let st := fold_left step (fill "Bye" "3" "4") (run (submit "Hi" "1" "3")) in
      captions st = [elem (Some (caption "Hi" "1" "3"))]
      /\ exists st',
           addOrUpdateCaption st = Some (st', toast_success msg_added)
           /\ captions st' = [elem (Some (caption "Hi" "1" "3"));
                              elem (Some (caption "Bye" "3" "4"))]).
Proof.
  split; [ | split ].
  - intros st c Hdraft Hfields Hse Hstore.
    apply missing_field_false in Hfields as (Ht & Hs & He).
    destruct (isOverlapping_spec st _ _ Hse Hstore) as (b & Hb & Hiff).
    rewrite <- Hiff. unfold addOrUpdateCaption.
    rewrite Hdraft. simpl. rewrite Ht, Hs, He. simpl.
    fold (startOf c) (endOf c). rewrite (lt_ge_false _ _ Hse), Hb. simpl.
    destruct b.
    + split; [ now split | now left ].
    + split.
      * split; [ | discriminate ].
        destruct (editingIndex st); intros [=].
      * right. destruct (editingIndex st); eauto.
  - vm_compute. split; reflexivity.
  - vm_compute. split; [ reflexivity | ]. eexists. split; reflexivity.
Qed.

(** The store with the caption from 1 to 3 and the draft from 2 to 4. *)
Lemma overlap_exactly_when_intersecting_witness :
  let st := fold_left step (fill "Bye" "2" "4") (run (submit "Hi" "1" "3")) in
  let c := caption "Bye" "2" "4" in
  addOrUpdateCaption st = Some (st, toast_error msg_overlap) <->
  exists i c',
    stored_at (captions st) i c' /\ Some i <> editingIndex st
    /\ intersects (startOf c) (endOf c) (startOf c') (endOf c') = true.
Proof.
  intros st c.
  refine (proj1 (proj1 overlap_exactly_when_intersecting st c _ _ _ _)).
  - reflexivity.
  - apply missing_field_false. repeat split; reflexivity.
  - vm_compute. reflexivity.
  - intros [ | i ] v H Hne; [ | discriminate ].
    injection H as <-. eexists. split; [ reflexivity | ].
    vm_compute. reflexivity.
Defined.

(** The hypothesis on the store holds in every reachable state whose
    caption list has no [undefined] element. *)
Lemma reachable_store_checked (st : App) :
  reachable st ->
  (forall i, captions st !! i <> Some (elem None)) ->
  forall i v,
    captions st !! i = Some (elem v) -> Some i <> editingIndex st ->
    exists c', v = Some c' /\ ge (startOf c') (endOf c') = false.
Proof.
  intros Hreach Hdef i [ c' | ] Hi _; [ | now apply Hdef in Hi ].
  exists c'. split; [ reflexivity | ].
  destruct (reachable_invariant st Hreach) as [Hvalid _].
  now destruct (Hvalid i c' Hi) as (_ & _ & _ & Hge).
Qed.

(** The equivalence needs [start < end] on the draft: a draft whose start
    is NaN passes the range check, and the second disjunct of the test
    reports it as overlapping a caption that its end falls in. *)
Example nan_draft_reported_as_overlap :
  let st := fold_left step (fill "Bye" "abc" "5") (run (submit "Hi" "1" "6")) in
  addOrUpdateCaption st = Some (st, toast_error msg_overlap)
  /\ intersects (startOf (caption "Bye" "abc" "5"))
       (endOf (caption "Bye" "abc" "5"))
       (startOf (caption "Hi" "1" "6")) (endOf (caption "Hi" "1" "6"))
     = false.
Proof. vm_compute. split; reflexivity. Qed.





(** C6, as the code has it. Every caption of a reachable state has a
    non-empty text, start and end, and its parsed start and end do not
    satisfy [start >= end]: when both are Numbers (neither is NaN),
    [end > start]. No lower bound on start is enforced. *)
Theorem reachable_captions_committable (st : App) (i : nat) (c : Caption) :
  reachable st ->
  stored_at (captions st) i c ->
  (exists t s e,
      c = caption t s e /\ t <> "" /\ s <> "" /\ e <> "")
  /\ ge (startOf c) (endOf c) = false
  /\ (is_nan (startOf c) = false -> is_nan (endOf c) = false ->
      gt (endOf c) (startOf c) = true).
Proof.
  intros Hreach Hi.
  destruct (reachable_invariant st Hreach) as [Hvalid _].
  destruct (Hvalid i c Hi) as (Ht & Hs & He & Hge).
  split; [ | split ]; auto.
  - destruct c as [ [ | t ] [ | s ] [ | e ] ]; simpl in *; try discriminate.
    exists t, s, e. unfold caption.
    rewrite negb_true_iff, String.eqb_neq in Ht, Hs, He. auto.
  - intros Hns Hne. rewrite gt_lt. now apply ge_false_lt.
Qed.

Lemma reachable_captions_committable_witness :
  let c := caption "D" "7" "8.5e0s" in
  (exists t s e, c = caption t s e /\ t <> "" /\ s <> "" /\ e <> "")
  /\ ge (startOf c) (endOf c) = false
  /\ (is_nan (startOf c) = false -> is_nan (endOf c) = false ->
      gt (endOf c) (startOf c) = true).
Proof.
  apply (reachable_captions_committable (run stale_cursor_run) 2).
  - exists stale_cursor_run. reflexivity.
  - vm_compute. reflexivity.
Defined.

(** C6, as stated, fails: a caption whose parsed start is negative is
    stored, and so is one whose parsed start is NaN. *)
Lemma negative_start_is_stored :
  reachable (run negative_start_run)
  /\ stored_at (captions (run negative_start_run)) 0 (caption "Hi" "-5" "3")
  /\ startOf (caption "Hi" "-5" "3") = of_Z (-5)
  /\ ge (startOf (caption "Hi" "-5" "3")) (of_Z 0) = false
  /\ stored_at (captions (run unparseable_start_run)) 0 (caption "Hi" "abc" "5")
  /\ startOf (caption "Hi" "abc" "5") = NaN.
Proof.
  split; [ now exists negative_start_run | ].
  repeat split; vm_compute; reflexivity.
Qed.

Lemma addOrUpdateCaption_error (st st' : App) (msg : string) :
  addOrUpdateCaption st = Some (st', toast_error msg) ->
  st' = st /\ (msg = msg_fill \/ msg = msg_range \/ msg = msg_overlap).
Proof.
  unfold addOrUpdateCaption.
  destruct (currentCaption st) as [ c | ]; simpl; [ | discriminate ].
  destruct (negb (ToBoolean (text c)) || negb (ToBoolean (start c))
            || negb (ToBoolean (end_ c))).
  { intros [= <- <-]. auto. }
  destruct (ge (parseFloat (start c)) (parseFloat (end_ c))).
  { intros [= <- <-]. auto. }
  destruct (isOverlapping st _ _) as [ [] | ]; simpl; [ | | discriminate ].
  { intros [= <- <-]. auto. }
  destruct (editingIndex st); discriminate.
Qed.

(** Each validation failure is reported as its error, in the unchanged
    state. *)
Lemma addOrUpdateCaption_failures (st : App) (c : Caption) :
  currentCaption st = Some c ->
  (missing_field c ->
   addOrUpdateCaption st = Some (st, toast_error msg_fill))
  /\ (~ missing_field c -> ge (startOf c) (endOf c) = true ->
      addOrUpdateCaption st = Some (st, toast_error msg_range))
  /\ (~ missing_field c -> ge (startOf c) (endOf c) = false ->
      isOverlapping st (startOf c) (endOf c) = Some true ->
      addOrUpdateCaption st = Some (st, toast_error msg_overlap)).
Proof.
  intros Hdraft. unfold addOrUpdateCaption. rewrite Hdraft. simpl.
  fold (startOf c) (endOf c). split; [ | split ].
  - intros Hmiss.
    destruct (ToBoolean (text c)) eqn:Ht, (ToBoolean (start c)) eqn:Hs,
      (ToBoolean (end_ c)) eqn:He; simpl; try reflexivity.
    exfalso. revert Hmiss. apply missing_field_false. auto.
  - intros Hfields Hge. apply missing_field_false in Hfields as (-> & -> & ->).
    simpl. now rewrite Hge.
  - intros Hfields Hge Hov.
    apply missing_field_false in Hfields as (-> & -> & ->).
    simpl. now rewrite Hge, Hov.
Qed.

(** C10. A failed validation changes nothing: when [addOrUpdateCaption]
    reports an error, the state it leaves (caption list, edit cursor and
    draft) is the state it was called in, and the error is one of the three
    validation errors; and each validation failure (an empty field;
    [start >= end]; an overlap) is reported as its error, in the unchanged
    state. *)
Theorem validation_failure_is_atomic (st : App) :
  (forall st' msg,
      addOrUpdateCaption st = Some (st', toast_error msg) ->
      st' = st /\ captions st' = captions st
      /\ editingIndex st' = editingIndex st
      /\ currentCaption st' = currentCaption st
      /\ (msg = msg_fill \/ msg = msg_range \/ msg = msg_overlap))
  /\ (forall c,
         currentCaption st = Some c ->
         (missing_field c ->
          addOrUpdateCaption st = Some (st, toast_error msg_fill))
         /\ (~ missing_field c -> ge (startOf c) (endOf c) = true ->
             addOrUpdateCaption st = Some (st, toast_error msg_range))
         /\ (~ missing_field c -> ge (startOf c) (endOf c) = false ->
             isOverlapping st (startOf c) (endOf c) = Some true ->
             addOrUpdateCaption st = Some (st, toast_error msg_overlap))).
Proof.
  split.
  - intros st' msg H. apply addOrUpdateCaption_error in H as [-> Hmsg].
    repeat split; auto.
  - apply addOrUpdateCaption_failures.
Qed.

Lemma validation_failure_is_atomic_witness :
  let st := fold_left step (fill "Bye" "2" "4") (run (submit "Hi" "1" "3")) in
  addOrUpdateCaption st = Some (st, toast_error msg_overlap)
  /\ (st = st /\ captions st = captions st
      /\ editingIndex st = editingIndex st
      /\ currentCaption st = currentCaption st
      /\ (msg_overlap = msg_fill \/ msg_overlap = msg_range
          \/ msg_overlap = msg_overlap)).
Proof.
  intros st.
  assert (Hrun : addOrUpdateCaption st = Some (st, toast_error msg_overlap))
    by (vm_compute; reflexivity).
  split; [ exact Hrun | ].
  exact (proj1 (validation_failure_is_atomic st) st msg_overlap Hrun).
Defined.

(** C5, as the code has it. [addOrUpdateCaption] fails with
    "Please fill all fields." exactly when the text, the start or the end
    of the draft is empty (the empty string, or absent), and the state is
    then unchanged: no caption is added. That start and end parse as
    Numbers is not part of this check. *)
Theorem fill_all_fields_iff_empty (st : App) (c : Caption) :
  currentCaption st = Some c ->
  msg_fill = "Please fill all fields."
  /\ (addOrUpdateCaption st = Some (st, toast_error msg_fill)
      <-> missing_field c)
  /\ (forall st' t,
         missing_field c -> addOrUpdateCaption st = Some (st', t) ->
         captions st' = captions st).
Proof.
  intros Hdraft. split; [ reflexivity | ].
  destruct (addOrUpdateCaption_failures st c Hdraft) as (Hmiss & _ & _).
  split; [ split; [ | exact Hmiss ] | ].
  - intros Hrun. destruct (missing_field_dec c) as [ H | H ]; [ assumption | ].
    exfalso. revert Hrun. unfold addOrUpdateCaption. rewrite Hdraft. simpl.
    apply missing_field_false in H as (-> & -> & ->). simpl.
    destruct (ge _ _); [ discriminate | ].
    destruct (isOverlapping st _ _) as [ [] | ]; simpl; try discriminate.
    destruct (editingIndex st); discriminate.
  - intros st' t H Hrun. rewrite (Hmiss H) in Hrun. now injection Hrun as <- _.
Qed.

Lemma fill_all_fields_iff_empty_witness :
  let st := fold_left step (fill "Hi" "" "5") initial in
  let c := caption "Hi" "" "5" in
  msg_fill = "Please fill all fields."
  /\ (addOrUpdateCaption st = Some (st, toast_error msg_fill)
      <-> missing_field c)
  /\ (forall st' t,
         missing_field c -> addOrUpdateCaption st = Some (st', t) ->
         captions st' = captions st).
Proof.
  intros st c. apply (fill_all_fields_iff_empty st c). reflexivity.
Defined.

(** C5, as stated, fails: the draft whose start is "abc" passes the first
    check; its start parses as NaN, which passes the range check as well,
    and the caption is added. *)
Lemma unparseable_start_is_committed :
  let st := fold_left step (fill "Hi" "abc" "5") initial in
  currentCaption st = Some (caption "Hi" "abc" "5")
  /\ parseFloat (Str "abc") = NaN
  /\ exists st',
       addOrUpdateCaption st = Some (st', toast_success msg_added)
       /\ captions st' = [elem (Some (caption "Hi" "abc" "5"))].
Proof.
  vm_compute. repeat split. eexists. split; reflexivity.
Qed.

(** C3. [handleDeleteCaption] leaves the edit cursor as it is. With two
    captions and the second one being edited, deleting the second one
    leaves the cursor at index 1 of a list of length 1, and deleting the
    first one leaves the cursor at index 1 as well. *)
Theorem delete_keeps_edit_cursor :
  (forall index st,
      editingIndex (handleDeleteCaption index st).1 = editingIndex st)
  /\ (let st := run editing_second_run in
      editingIndex st = Some 1%nat
      /\ captions st = [elem (Some (caption "A" "1" "2"));
                        elem (Some (caption "B" "3" "4"))]
      /\ editingIndex (step st (DeleteCaption 1)) = Some 1%nat
      /\ captions (step st (DeleteCaption 1))
         = [elem (Some (caption "A" "1" "2"))]
      /\ editingIndex (step st (DeleteCaption 0)) = Some 1%nat
      /\ captions (step st (DeleteCaption 0))
         = [elem (Some (caption "B" "3" "4"))]).
Proof.
  split; [ reflexivity | ]. vm_compute. repeat split.
Qed.

(** With the cursor left on a deleted caption, the next submission is an
    update: it replaces the caption that has moved to that index. *)
Example stale_cursor_overwrites :
  captions (run edit_deleted_run) = [elem (Some (caption "C" "5" "6"))]
  /\ editingIndex (run edit_deleted_run) = None.
Proof. vm_compute. split; reflexivity. Qed.

(** The change of the video URL that the component goes through keeps the
    edit cursor, whether the render with the new URL returns or throws;
    when that render returns, it is [setVideoURL]. *)
Lemma videoURLChange_editingIndex (url : string) (st : App) :
  editingIndex (videoURLChange url st) = editingIndex st.
Proof.
  unfold videoURLChange. destruct (String.eqb url (videoURL st));
    [ reflexivity | ].
  now destruct (renderThrows (withVideoURL url st)).
Qed.

Lemma videoURLChange_returns (url : string) (st : App) :
  renderThrows (withVideoURL url st) = false ->
  videoURLChange url st = setVideoURL url st.
Proof.
  intros Hr. unfold videoURLChange, setVideoURL. rewrite Hr.
  reflexivity.
Qed.

Lemma videoURLChange_throws (url : string) (st : App) :
  url <> videoURL st ->
  renderThrows (withVideoURL url st) = true ->
  videoURLChange url st = withVideoURL url st
  /\ captions (videoURLChange url st) = captions st
  /\ currentCaption (videoURLChange url st) = currentCaption st.
Proof.
  intros Hne Hr. unfold videoURLChange. rewrite Hr.
  apply String.eqb_neq in Hne. rewrite Hne. repeat split.
Qed.

(** With the second of two captions selected for edition, the render with
    the new URL returns, and the event is [setVideoURL]. *)
Example video_change_while_editing :
  let st := run editing_second_run in
  renderThrows (withVideoURL "next.mp4" st) = false
  /\ step st (VideoURL "next.mp4") = setVideoURL "next.mp4" st.
Proof. vm_compute. split; reflexivity. Qed.

(** C4. A change of the video source empties the caption list and the
    draft, and leaves the edit cursor as it is. *)
Theorem video_change_keeps_edit_cursor (url : string) (st : App) :
  url <> videoURL st ->
  captions (setVideoURL url st) = []
  /\ currentCaption (setVideoURL url st) = Some blank
  /\ editingIndex (setVideoURL url st) = editingIndex st.
Proof.
  intros Hne. unfold setVideoURL.
  apply String.eqb_neq in Hne. rewrite Hne. repeat split.
Qed.

Lemma video_change_keeps_edit_cursor_witness :
  let st := run editing_second_run in
  captions (setVideoURL "next.mp4" st) = []
  /\ currentCaption (setVideoURL "next.mp4" st) = Some blank
  /\ editingIndex (setVideoURL "next.mp4" st) = Some 1%nat.
Proof.
  intros st.
  apply (video_change_keeps_edit_cursor "next.mp4" st). discriminate.
Defined.

(** With the cursor left by the previous video, the first submission for
    the new video is an update of an empty list: the list gets a hole. *)
Example stale_cursor_after_video_change :
  captions (run edit_then_new_video_run)
  = [hole; elem (Some (caption "C" "5" "6"))].
Proof. vm_compute. reflexivity. Qed.

(** ** The track encoder *)

Lemma decimal_digitsb_true (n : nat) (s : string) :
  decimal_digitsb n s = true -> decimal_digits n s.
Proof.
  unfold decimal_digitsb, decimal_digits.
  rewrite andb_true_iff, Nat.eqb_eq. tauto.
Qed.

Lemma below_by_cases (P : Z -> bool) (bound : nat) :
  forallb (fun n => P (Z.of_nat n)) (seq 0 bound) = true ->
  forall z, 0 <= z < Z.of_nat bound -> P z = true.
Proof.
  intros Hall z Hz. rewrite forallb_forall in Hall.
  specialize (Hall (Z.to_nat z)). rewrite Z2Nat.id in Hall by lia.
  apply Hall. apply in_seq. lia.
Qed.

Lemma padStart_two_digits (z : Z) :
  0 <= z < 100 -> decimal_digits 2 (padStart (pretty z) 2 "0").
Proof.
  intros Hz. apply decimal_digitsb_true.
  apply (below_by_cases
           (fun z => decimal_digitsb 2 (padStart (pretty z) 2 "0")) 100);
    [ vm_compute; reflexivity | lia ].
Qed.

Lemma padStart_three_digits (z : Z) :
  0 <= z < 1000 -> decimal_digits 3 (padStart (pretty z) 3 "0").
Proof.
  intros Hz. apply decimal_digitsb_true.
  apply (below_by_cases
           (fun z => decimal_digitsb 3 (padStart (pretty z) 3 "0")) 1000);
    [ vm_compute; reflexivity | lia ].
Qed.

(** On an invalid date every getter is NaN. *)
Lemma formatTime_invalid {A : Type} `{ToNumber A} (seconds : A) :
  Date.new (mul (to_number seconds) (of_Z 1000)) = None ->
  formatTime seconds = "NaN:NaN:NaN.NaN".
Proof. intros Hd. unfold formatTime. now rewrite Hd. Qed.

(** C8. [formatTime] maps 0 to "00:00:00.000" and 3661.5 to
    "01:01:01.500", for the Numbers and for the strings that the caption
    fields hold; and for every input whose date is valid, the fields are
    padded with zeros: two digits for the hours, the minutes and the
    seconds, three for the milliseconds. *)
Theorem formatTime_examples :
  formatTime (of_Z 0) = "00:00:00.000"
  /\ formatTime (of_ratio false 7323 2) = "01:01:01.500"
  /\ Text.parseFloat "3661.5" = of_ratio false 7323 2
  /\ formatTime (Str "0") = "00:00:00.000"
  /\ formatTime (Str "3661.5") = "01:01:01.500"
  /\ (forall (A : Type) (HA : ToNumber A) (seconds : A) (tv : Z),
         Date.new (mul (to_number seconds) (of_Z 1000)) = Some tv ->
         exists hh mm ss ms,
           formatTime seconds
           = hh +:+ ":" +:+ mm +:+ ":" +:+ ss +:+ "." +:+ ms
           /\ decimal_digits 2 hh /\ decimal_digits 2 mm
           /\ decimal_digits 2 ss /\ decimal_digits 3 ms).
Proof.
  do 5 (split; [ vm_compute; reflexivity | ]).
  intros A HA seconds tv Hd. unfold formatTime. rewrite Hd. simpl.
  do 4 eexists. split; [ reflexivity | ].
  refine (conj (padStart_two_digits _ _)
            (conj (padStart_two_digits _ _)
               (conj (padStart_two_digits _ _) (padStart_three_digits _ _))));
    unfold Date.msPerHour, Date.msPerMinute, Date.msPerSecond;
    match goal with
    | |- _ <= ?a mod ?b < _ => pose proof (Z.mod_pos_bound a b); lia
    end.
Qed.

Lemma formatTime_examples_witness :
  exists hh mm ss ms,
    formatTime (Str "45296.007")
    = hh +:+ ":" +:+ mm +:+ ":" +:+ ss +:+ "." +:+ ms
    /\ decimal_digits 2 hh /\ decimal_digits 2 mm
    /\ decimal_digits 2 ss /\ decimal_digits 3 ms.
Proof.
  refine (proj2 (proj2 (proj2 (proj2 (proj2 formatTime_examples))))
            value _ (Str "45296.007") 45296007 _).
  vm_compute. reflexivity.
Defined.

Lemma div_one_day (tv : Z) :
  ((tv + Date.msPerDay) / Date.msPerHour) mod 24 = (tv / Date.msPerHour) mod 24
  /\ ((tv + Date.msPerDay) / Date.msPerMinute) mod 60
     = (tv / Date.msPerMinute) mod 60
  /\ ((tv + Date.msPerDay) / Date.msPerSecond) mod 60
     = (tv / Date.msPerSecond) mod 60
  /\ (tv + Date.msPerDay) mod Date.msPerSecond = tv mod Date.msPerSecond.
Proof.
  unfold Date.msPerDay, Date.msPerHour, Date.msPerMinute, Date.msPerSecond.
  repeat split.
  - replace (tv + 86400000) with (tv + 24 * 3600000) by lia.
    rewrite Z.div_add by lia.
    replace (tv / 3600000 + 24) with (tv / 3600000 + 1 * 24) by lia.
    now rewrite Z.mod_add by lia.
  - replace (tv + 86400000) with (tv + 1440 * 60000) by lia.
    rewrite Z.div_add by lia.
    replace (tv / 60000 + 1440) with (tv / 60000 + 24 * 60) by lia.
    now rewrite Z.mod_add by lia.
  - replace (tv + 86400000) with (tv + 86400 * 1000) by lia.
    rewrite Z.div_add by lia.
    replace (tv / 1000 + 86400) with (tv / 1000 + 1440 * 60) by lia.
    now rewrite Z.mod_add by lia.
  - replace (tv + 86400000) with (tv + 86400 * 1000) by lia.
    now rewrite Z.mod_add by lia.
Qed.

(** C7, as stated, fails: 86400 seconds is 24 hours, and its string is the
    string of 0 seconds; 90000 seconds is 25 hours, and its hours field
    is 01. *)
Lemma formatTime_one_day_collapses :
  of_Z 86400 <> of_Z 0
  /\ formatTime (of_Z 86400) = "00:00:00.000"
  /\ formatTime (of_Z 0) = "00:00:00.000"
  /\ formatTime (of_Z 90000) = "01:00:00.000"
  /\ formatTime (of_Z 3600) = "01:00:00.000".
Proof. vm_compute. repeat split. discriminate. Qed.

(** Two inputs that are 86400 apart and have a fraction need not have
    time values one day apart: the product by 1000 is rounded, and then
    truncated. *)
Example formatTime_fraction_one_day_later :
  formatTime (Str "1.001") = "00:00:01.000"
  /\ formatTime (Str "86401.001") = "00:00:01.001".
Proof. vm_compute. split; reflexivity. Qed.

Local Open Scope list_scope.

Lemma append_cons (a : ascii) (s1 s2 : string) :
  String a s1 +:+ s2 = String a (s1 +:+ s2).
Proof. reflexivity. Qed.

Lemma append_assoc (s1 s2 s3 : string) :
  (s1 +:+ s2) +:+ s3 = s1 +:+ (s2 +:+ s3).
Proof.
  induction s1 as [ | a s1 IH ]; [ reflexivity | ].
  rewrite !append_cons. now rewrite IH.
Qed.

Lemma unlines_app (l1 l2 : list string) :
  unlines (l1 ++ l2) = unlines l1 +:+ unlines l2.
Proof.
  induction l1 as [ | l l1 IH ]; simpl; [ reflexivity | ].
  rewrite IH. now rewrite !append_assoc.
Qed.

Lemma appendCue_block (vtt : string) (c : Caption) (index : nat) :
  appendCue vtt (Some c) index
  = Some (vtt +:+ unlines (cueBlock index c ++ [""])).
Proof.
  unfold appendCue, cueBlock, unlines. simpl.
  now rewrite !append_assoc.
Qed.

Lemma forEach_cues (cs : list Caption) (k : nat) (vtt : string) :
  JSArray.forEach_entries appendCue
    (JSArray.entries_from k ((fun c => elem (Some c)) <$> cs)) vtt
  = Some (vtt +:+ unlines
            (concat (imap (fun i c => cueBlock (k + i) c ++ [""]) cs))).
Proof.
  revert k vtt. induction cs as [ | c cs IH ]; intros k vtt.
  - simpl. f_equal. induction vtt as [ | a vtt IHv ]; [ reflexivity | ].
    rewrite append_cons. now rewrite <- IHv.
  - rewrite fmap_cons.
    cbn [JSArray.entries_from JSArray.forEach_entries].
    rewrite appendCue_block. cbn [mbind option_bind]. rewrite IH.
    f_equal. cbn [imap concat]. rewrite Nat.add_0_r.
    rewrite (unlines_app (cueBlock k c ++ [""])), append_assoc.
    do 4 f_equal. apply imap_ext. intros i x _.
    unfold compose. do 2 f_equal. lia.
Qed.

(** C9. The text that [generateVTT] builds for a list of captions is the
    header "WEBVTT" and a blank line, followed by one block per caption in
    the order of the list, each block being the position counted from 1,
    the line [formatTime start --> formatTime end] and the text, and each
    block being followed by exactly one blank line; for the empty list it
    is the header and the blank line. *)
Theorem generateVTT_encode (cs : list Caption) :
  generateVTT ((fun c => elem (Some c)) <$> cs) = Some (encode cs)
  /\ encode cs
     = unlines ["WEBVTT"; ""]
       +:+ unlines (concat (imap (fun i c => cueBlock i c ++ [""]) cs))
  /\ generateVTT [] = Some (String "W" (String "E" (String "B" (String "V"
       (String "T" (String "T" (String "010" (String "010" "")))))))).
Proof.
  split; [ | split ].
  - unfold generateVTT, JSArray.forEach, JSArray.entries, encode.
    rewrite forEach_cues. reflexivity.
  - reflexivity.
  - reflexivity.
Qed.

(** The cue identifier is the index in the array plus one: on the array
    with a hole that a stale cursor leaves, the identifiers are 1 and 3. *)
Example generateVTT_with_hole :
  generateVTT (captions (run stale_cursor_run))
  = Some (unlines ["WEBVTT"; "";
                   "1"; "00:00:05.000 --> 00:00:06.000"; "C"; "";
                   "3"; "00:00:07.000 --> NaN:NaN:NaN.NaN"; "D"; ""]).
Proof. vm_compute. reflexivity. Qed.

(** * The rest of the component *)

(** ** Arrays without holes *)

Lemma lookup_dense (cs : list Caption) (i : nat) :
  dense cs !! i = (fun c => elem (Some c)) <$> cs !! i.
Proof. unfold dense. apply list_lookup_fmap. Qed.

Lemma length_dense (cs : list Caption) : length (dense cs) = length cs.
Proof. unfold dense. apply length_fmap. Qed.



Lemma spread_dense (cs : list Caption) : JSArray.spread (dense cs) = dense cs.
Proof.
  unfold JSArray.spread, dense. rewrite <- list_fmap_compose.
  now apply list_fmap_ext.
Qed.

Lemma set_dense (cs : list Caption) (i : nat) (c : Caption) :
  (i < length cs)%nat ->
  JSArray.set (dense cs) i (Some c) = dense (<[i := c]> cs).
Proof.
  intros Hi. unfold JSArray.set. rewrite length_dense.
  destruct (Nat.ltb_spec i (length cs)) as [ _ | ? ]; [ | lia ].
  unfold dense. now rewrite list_fmap_insert.
Qed.

Lemma entries_from_dense (k : nat) (cs : list Caption) :
  JSArray.entries_from k (dense cs)
  = imap (fun i c => ((k + i)%nat, Some c)) cs.
Proof.
  revert k. induction cs as [ | c cs IH ]; intros k; simpl; [ reflexivity | ].
  rewrite Nat.add_0_r. f_equal. fold (dense cs). rewrite IH.
  apply imap_ext. intros i x _. simpl. f_equal. lia.
Qed.

Lemma filter_entries_dense (index k : nat) (cs : list Caption) :
  (fun e => elem e.2)
    <$> List.filter (fun e : nat * option Caption => bool_decide (e.1 ≠ index))
          (JSArray.entries_from k (dense cs))
  = dense (if (index <? k)%nat then cs else delete (index - k)%nat cs).
Proof.
  revert k. induction cs as [ | c cs IH ]; intros k.
  - simpl. now destruct (index <? k)%nat.
  - change (dense (c :: cs)) with (elem (Some c) :: dense cs).
    cbn [JSArray.entries_from List.filter fst]. specialize (IH (S k)).
    destruct (decide (k = index)) as [ -> | Hne ].
    + rewrite bool_decide_eq_false_2 by (intros H; now apply H).
      rewrite IH. rewrite Nat.ltb_irrefl, Nat.sub_diag.
      now destruct (Nat.ltb_spec index (S index)); [ | lia ].
    + rewrite bool_decide_eq_true_2 by assumption.
      rewrite fmap_cons, IH.
      destruct (Nat.ltb_spec index k) as [ Hlt | Hge ].
      * now destruct (Nat.ltb_spec index (S k)); [ | lia ].
      * destruct (Nat.ltb_spec index (S k)); [ lia | ].
        replace (index - k)%nat with (S (index - S k)) by lia. reflexivity.
Qed.

Lemma filter_dense (index : nat) (cs : list Caption) :
  JSArray.filter (fun _ idx => bool_decide (idx ≠ index)) (dense cs)
  = dense (delete index cs).
Proof.
  unfold JSArray.filter, JSArray.entries.
  rewrite (filter_entries_dense index 0 cs). simpl.
  now rewrite Nat.sub_0_r.
Qed.

(** ** Additions, updates and deletions *)

Lemma lookup_set_other {A : Type} (a : list (slot A)) (i j : nat)
    (v : option A) :
  j <> i ->
  JSArray.set a i v !! j
  = if (j <? length a)%nat then a !! j
    else if (j <? i)%nat then Some hole else None.
Proof.
  intros Hne. unfold JSArray.set.
  destruct (Nat.ltb_spec i (length a)) as [ Hi | Hi ].
  - rewrite list_lookup_insert_ne by auto.
    destruct (Nat.ltb_spec j (length a)) as [ Hj | Hj ]; [ reflexivity | ].
    rewrite lookup_ge_None_2 by lia.
    now destruct (Nat.ltb_spec j i); [ lia | ].
  - destruct (Nat.ltb_spec j (length a)) as [ Hj | Hj ].
    + now rewrite lookup_app_l by assumption.
    + rewrite lookup_app_r by lia.
      destruct (Nat.ltb_spec j i) as [ Hji | Hji ].
      * rewrite lookup_app_l by (rewrite length_replicate; lia).
        apply lookup_replicate_2. lia.
      * apply lookup_ge_None_2. rewrite length_app, length_replicate. simpl. lia.
Qed.

Lemma length_set {A : Type} (a : list (slot A)) (i : nat) (v : option A) :
  length (JSArray.set a i v) = Nat.max (length a) (S i).
Proof.
  unfold JSArray.set. destruct (Nat.ltb_spec i (length a)) as [ Hi | Hi ].
  - rewrite length_insert. lia.
  - rewrite !length_app, length_replicate. simpl. lia.
Qed.

Lemma lookup_spread_hole {A : Type} (a : list (slot A)) (i : nat) :
  JSArray.spread a !! i <> Some hole.
Proof.
  unfold JSArray.spread. rewrite list_lookup_fmap.
  now destruct (a !! i) as [ [ | w ] | ].
Qed.

(** The notification of a submission that succeeds tells which branch was
    taken. *)
Lemma addOrUpdateCaption_success_msg (st st' : App) (msg : string) :
  addOrUpdateCaption st = Some (st', toast_success msg) ->
  msg = match editingIndex st with
        | Some _ => msg_updated
        | None => msg_added
        end
  /\ videoURL st' = videoURL st /\ videoError st' = videoError st.
Proof.
  unfold addOrUpdateCaption.
  destruct (currentCaption st) as [ c | ]; simpl; [ | discriminate ].
  destruct (negb (ToBoolean (text c)) || negb (ToBoolean (start c))
            || negb (ToBoolean (end_ c))); [ discriminate | ].
  destruct (ge (parseFloat (start c)) (parseFloat (end_ c))); [ discriminate | ].
  destruct (isOverlapping st _ _) as [ [] | ]; simpl; try discriminate.
  destruct (editingIndex st); intros [= <- <-]; auto.
Qed.

(** X1. A submission that succeeds while no caption is being edited
    appends the draft: the list is one longer, the draft is its last
    element, every caption keeps its index, the cursor stays unset and the
    draft is emptied; the notification is "Caption added successfully!". *)
Theorem add_appends_draft (st st' : App) (msg : string) :
  addOrUpdateCaption st = Some (st', toast_success msg) ->
  editingIndex st = None ->
  exists c,
    currentCaption st = Some c
    /\ msg = msg_added
    /\ length (captions st') = S (length (captions st))
    /\ stored_at (captions st') (length (captions st)) c
    /\ (forall i c', (i < length (captions st))%nat ->
                     stored_at (captions st') i c'
                     <-> stored_at (captions st) i c')
    /\ editingIndex st' = None
    /\ currentCaption st' = Some blank.
Proof.
  intros Hrun Hei.
  destruct (addOrUpdateCaption_success_msg _ _ _ Hrun) as (Hmsg & _ & _).
  apply addOrUpdateCaption_success in Hrun
    as (c & Hdraft & _ & _ & Hcaps & Hblank & Hcur).
  rewrite Hei in Hmsg, Hcaps. exists c. rewrite Hcaps.
  repeat split; auto.
  - rewrite length_app, length_spread. simpl. lia.
  - unfold stored_at. rewrite lookup_app_r by (rewrite length_spread; lia).
    now rewrite length_spread, Nat.sub_diag.
  - unfold stored_at. rewrite lookup_app_l by (rewrite length_spread; lia).
    apply lookup_spread.
  - unfold stored_at. rewrite lookup_app_l by (rewrite length_spread; lia).
    apply lookup_spread.
Qed.

Lemma add_appends_draft_witness :
  let st := fold_left step (fill "Bye" "3" "4") (run (submit "Hi" "1" "3")) in
  exists st',
    addOrUpdateCaption st = Some (st', toast_success msg_added)
    /\ exists c,
         currentCaption st = Some c
         /\ msg_added = msg_added
         /\ length (captions st') = S (length (captions st))
         /\ stored_at (captions st') (length (captions st)) c
         /\ (forall i c', (i < length (captions st))%nat ->
                          stored_at (captions st') i c'
                          <-> stored_at (captions st) i c')
         /\ editingIndex st' = None
         /\ currentCaption st' = Some blank.
Proof.
  intros st.
  destruct (addOrUpdateCaption st) as [ [st' t] | ] eqn:Hrun;
    [ | vm_compute in Hrun; discriminate Hrun ].
  assert (Ht : t = toast_success msg_added)
    by (vm_compute in Hrun; now injection Hrun as _ <-).
  subst t. exists st'. split; [ reflexivity | ].
  apply (add_appends_draft st st' msg_added Hrun). reflexivity.
Defined.

(** X2. A submission that succeeds while the caption at an index of the
    list is being edited replaces that element by the draft: the length is
    the same, the other captions keep their indices, the cursor is cleared
    and the draft is emptied; the notification is
    "Caption updated successfully!". *)
Theorem update_replaces_in_place (st st' : App) (msg : string) (i : nat) :
  addOrUpdateCaption st = Some (st', toast_success msg) ->
  editingIndex st = Some i ->
  (i < length (captions st))%nat ->
  exists c,
    currentCaption st = Some c
    /\ msg = msg_updated
    /\ length (captions st') = length (captions st)
    /\ stored_at (captions st') i c
    /\ (forall j c', j <> i ->
                     stored_at (captions st') j c'
                     <-> stored_at (captions st) j c')
    /\ editingIndex st' = None
    /\ currentCaption st' = Some blank.
Proof.
  intros Hrun Hei Hi.
  destruct (addOrUpdateCaption_success_msg _ _ _ Hrun) as (Hmsg & _ & _).
  apply addOrUpdateCaption_success in Hrun
    as (c & Hdraft & _ & _ & Hcaps & Hblank & Hcur).
  rewrite Hei in Hmsg, Hcaps. exists c. rewrite Hcaps.
  repeat split; auto.
  - rewrite length_set, length_spread. lia.
  - apply lookup_set_eq.
  - unfold stored_at. rewrite lookup_set_other by assumption.
    rewrite length_spread.
    destruct (Nat.ltb_spec j (length (captions st))) as [ Hj | Hj ].
    + apply lookup_spread.
    + destruct (j <? i)%nat; discriminate.
  - unfold stored_at. rewrite lookup_set_other by assumption.
    rewrite length_spread. intros Hst.
    destruct (Nat.ltb_spec j (length (captions st))) as [ Hj | Hj ].
    + now apply lookup_spread.
    + apply lookup_lt_Some in Hst. lia.
Qed.

(** X3. A submission that succeeds while the cursor is at or beyond the
    end of the list extends the list up to the cursor: the length becomes
    the cursor plus one, the draft is the last element, the positions from
    the old length up to the cursor are holes, and the captions of the list
    keep their indices. *)
Theorem update_beyond_end_extends (st st' : App) (msg : string) (i : nat) :
  addOrUpdateCaption st = Some (st', toast_success msg) ->
  editingIndex st = Some i ->
  (length (captions st) <= i)%nat ->
  exists c,
    currentCaption st = Some c
    /\ msg = msg_updated
    /\ length (captions st') = S i
    /\ stored_at (captions st') i c
    /\ (forall j, (length (captions st) <= j < i)%nat ->
                  captions st' !! j = Some hole)
    /\ (forall j c', (j < length (captions st))%nat ->
                     stored_at (captions st') j c'
                     <-> stored_at (captions st) j c')
    /\ editingIndex st' = None.
Proof.
  intros Hrun Hei Hi.
  destruct (addOrUpdateCaption_success_msg _ _ _ Hrun) as (Hmsg & _ & _).
  apply addOrUpdateCaption_success in Hrun
    as (c & Hdraft & _ & _ & Hcaps & Hblank & Hcur).
  rewrite Hei in Hmsg, Hcaps. exists c. rewrite Hcaps.
  repeat split; auto.
  - rewrite length_set, length_spread. lia.
  - apply lookup_set_eq.
  - intros j Hj. rewrite lookup_set_other by lia. rewrite length_spread.
    destruct (Nat.ltb_spec j (length (captions st))); [ lia | ].
    now destruct (Nat.ltb_spec j i); [ | lia ].
  - unfold stored_at. rewrite lookup_set_other by lia. rewrite length_spread.
    destruct (Nat.ltb_spec j (length (captions st))); [ | lia ].
    apply lookup_spread.
  - unfold stored_at. rewrite lookup_set_other by lia. rewrite length_spread.
    destruct (Nat.ltb_spec j (length (captions st))); [ | lia ].
    apply lookup_spread.
Qed.

Lemma update_replaces_in_place_witness :
  let st := run update_second_run in
  exists st',
    addOrUpdateCaption st = Some (st', toast_success msg_updated)
    /\ exists c,
         currentCaption st = Some c
         /\ msg_updated = msg_updated
         /\ length (captions st') = length (captions st)
         /\ stored_at (captions st') 1 c
         /\ (forall j c', j <> 1%nat ->
                          stored_at (captions st') j c'
                          <-> stored_at (captions st) j c')
         /\ editingIndex st' = None
         /\ currentCaption st' = Some blank.
Proof.
  intros st.
  destruct (addOrUpdateCaption st) as [ [st' t] | ] eqn:Hrun;
    [ | vm_compute in Hrun; discriminate Hrun ].
  assert (Ht : t = toast_success msg_updated)
    by (vm_compute in Hrun; now injection Hrun as _ <-).
  subst t. exists st'. split; [ reflexivity | ].
  apply (update_replaces_in_place st st' msg_updated 1 Hrun).
  - reflexivity.
  - vm_compute. lia.
Defined.

Lemma update_beyond_end_extends_witness :
  let st := run stale_update_run in
  exists st',
    addOrUpdateCaption st = Some (st', toast_success msg_updated)
    /\ exists c,
         currentCaption st = Some c
         /\ msg_updated = msg_updated
         /\ length (captions st') = 3%nat
         /\ stored_at (captions st') 2 c
         /\ (forall j, (length (captions st) <= j < 2)%nat ->
                       captions st' !! j = Some hole)
         /\ (forall j c', (j < length (captions st))%nat ->
                          stored_at (captions st') j c'
                          <-> stored_at (captions st) j c')
         /\ editingIndex st' = None.
Proof.
  intros st.
  destruct (addOrUpdateCaption st) as [ [st' t] | ] eqn:Hrun;
    [ | vm_compute in Hrun; discriminate Hrun ].
  assert (Ht : t = toast_success msg_updated)
    by (vm_compute in Hrun; now injection Hrun as _ <-).
  subst t. exists st'. split; [ reflexivity | ].
  apply (update_beyond_end_extends st st' msg_updated 2 Hrun).
  - reflexivity.
  - vm_compute. lia.
Defined.

(** X4. On a list without holes, [handleDeleteCaption] removes the element
    at the index and shifts the later ones down by one; an index beyond
    the end removes nothing. In both cases the notification is
    "Caption deleted successfully!", and the draft, the cursor and the
    video are untouched. *)
Theorem delete_shifts_down (st : App) (cs : list Caption) (index : nat) :
  captions st = dense cs ->
  let st' := (handleDeleteCaption index st).1 in
  captions st' = dense (delete index cs)
  /\ (forall j, (j < index)%nat -> delete index cs !! j = cs !! j)
  /\ (forall j, (index <= j)%nat -> delete index cs !! j = cs !! S j)
  /\ ((index < length cs)%nat -> length (captions st') = pred (length cs))
  /\ ((length cs <= index)%nat -> captions st' = captions st)
  /\ (handleDeleteCaption index st).2 = toast_success msg_deleted
  /\ currentCaption st' = currentCaption st
  /\ editingIndex st' = editingIndex st
  /\ videoURL st' = videoURL st.
Proof.
  intros Hcs. simpl. rewrite Hcs, filter_dense. repeat split.
  - intros j Hj. now apply list_lookup_delete_lt.
  - intros j Hj. now apply list_lookup_delete_ge.
  - intros Hi. rewrite length_dense, length_delete; [ lia | ].
    now apply lookup_lt_is_Some_2.
  - intros Hi. f_equal. rewrite delete_take_drop.
    rewrite take_ge, drop_ge by lia. apply app_nil_r.
Qed.

Lemma delete_shifts_down_witness :
  let st := run (submit "A" "1" "2" ++ submit "B" "3" "4"
                 ++ submit "C" "5" "6") in
  let st' := (handleDeleteCaption 1 st).1 in
  captions st' = dense (delete 1%nat three_captions)
  /\ (forall j, (j < 1)%nat ->
                delete 1%nat three_captions !! j = three_captions !! j)
  /\ (forall j, (1 <= j)%nat ->
                delete 1%nat three_captions !! j = three_captions !! S j)
  /\ ((1 < length three_captions)%nat ->
      length (captions st') = pred (length three_captions))
  /\ ((length three_captions <= 1)%nat -> captions st' = captions st)
  /\ (handleDeleteCaption 1 st).2 = toast_success msg_deleted
  /\ currentCaption st' = currentCaption st
  /\ editingIndex st' = editingIndex st
  /\ videoURL st' = videoURL st.
Proof.
  intros st.
  apply (delete_shifts_down st three_captions 1).
  vm_compute. reflexivity.
Defined.

Lemma elem_of_filter_entries {A : Type} (cb : option A -> nat -> bool)
    (a : list (slot A)) (i : nat) (v : option A) :
  a !! i = Some (elem v) -> cb v i = true ->
  exists j, JSArray.filter cb a !! j = Some (elem v).
Proof.
  intros Hi Hcb. apply list_elem_of_lookup_1.
  unfold JSArray.filter. apply list_elem_of_fmap. exists (i, v).
  split; [ reflexivity | ].
  apply list_elem_of_In, filter_In. split; [ | assumption ].
  now apply list_elem_of_In, elem_of_entries.
Qed.

Lemma length_entries_from {A : Type} (k : nat) (a : list (slot A)) :
  (length (JSArray.entries_from k a) <= length a)%nat.
Proof.
  revert k. induction a as [ | [ | w ] a IH ]; intros k; simpl;
    [ lia | | ]; specialize (IH (S k)); lia.
Qed.

(** X5. On any list, the result of [handleDeleteCaption] has no hole, is
    not longer than the list, and holds the captions that the list holds
    at the other indices, and no other. *)
Theorem delete_compacts (st : App) (index : nat) :
  let a' := captions (handleDeleteCaption index st).1 in
  (forall j, a' !! j <> Some hole)
  /\ (length a' <= length (captions st))%nat
  /\ (forall c, (exists j, stored_at a' j c)
                <-> (exists i, i <> index /\ stored_at (captions st) i c)).
Proof.
  simpl. split; [ | split ].
  - intros j Hj. now apply lookup_filter in Hj as (i & v & [=] & _).
  - unfold JSArray.filter. rewrite length_fmap.
    etransitivity; [ apply filter_length_le | apply length_entries_from ].
  - intros c. split.
    + intros (j & Hj). now apply stored_at_delete in Hj.
    + intros (i & Hne & Hi).
      apply (elem_of_filter_entries
               (fun _ idx => bool_decide (idx ≠ index)) _ i (Some c) Hi).
      now apply bool_decide_eq_true_2.
Qed.

(** ** Edition *)



(** The hypothesis on the caption is needed: a stored caption whose start
    is NaN is refused as overlapping when it is submitted again. *)
Example edit_nan_caption_refused :
  captions (run edit_nan_run)
  = dense [caption "X" "abc" "5"; caption "Y" "1" "6"]
  /\ addOrUpdateCaption (run edit_nan_run)
     = Some (run edit_nan_run, toast_error msg_overlap).
Proof. vm_compute. split; reflexivity. Qed.

(** X7. A submission that succeeded cannot be repeated by pressing the
    button again: the draft is empty by then, and the second submission is
    refused with "Please fill all fields." and changes nothing. *)
Theorem submit_twice_refused (st st' : App) (msg : string) :
  addOrUpdateCaption st = Some (st', toast_success msg) ->
  addOrUpdateCaption st' = Some (st', toast_error msg_fill).
Proof.
  intros Hrun.
  apply addOrUpdateCaption_success in Hrun as (_ & _ & _ & _ & _ & Hblank & _).
  unfold addOrUpdateCaption. now rewrite Hblank.
Qed.

Lemma submit_twice_refused_witness :
  let st := fold_left step (fill "Bye" "3" "4") (run (submit "Hi" "1" "3")) in
  exists st',
    addOrUpdateCaption st = Some (st', toast_success msg_added)
    /\ addOrUpdateCaption st' = Some (st', toast_error msg_fill).
Proof.
  intros st.
  destruct (addOrUpdateCaption st) as [ [st' t] | ] eqn:Hrun;
    [ | vm_compute in Hrun; discriminate Hrun ].
  assert (Ht : t = toast_success msg_added)
    by (vm_compute in Hrun; now injection Hrun as _ <-).
  subst t. exists st'. split; [ reflexivity | ].
  exact (submit_twice_refused st st' msg_added Hrun).
Defined.

(** X8. The cursor is set by [handleEditCaption] only, and cleared by a
    successful update only: no other event changes it, whatever it does to
    the list. *)
Theorem cursor_changes_only_by_edit_or_update (st : App) (ev : event) :
  editingIndex (step st ev) <> editingIndex st ->
  (exists i, ev = EditCaption i /\ editingIndex (step st ev) = Some i)
  \/ (ev = AddOrUpdate /\ editingIndex (step st ev) = None
      /\ exists i st',
           editingIndex st = Some i
           /\ addOrUpdateCaption st = Some (st', toast_success msg_updated)).
Proof.
  destruct ev as [ name v | | index | index | url | ]; simpl; intros Hne;
    try congruence.
  - right. destruct (addOrUpdateCaption st) as [ [st' t] | ] eqn:Hrun;
      [ | congruence ].
    destruct t as [ msg | msg ].
    { apply addOrUpdateCaption_error in Hrun as [-> _]. congruence. }
    destruct (addOrUpdateCaption_success_msg _ _ _ Hrun) as (Hmsg & _ & _).
    pose proof Hrun as Hrun'.
    apply addOrUpdateCaption_success in Hrun'
      as (_ & _ & _ & _ & _ & _ & Hcur).
    destruct (editingIndex st) as [ i | ] eqn:Hei; [ | congruence ].
    subst msg. repeat split; eauto.
  - left. eauto.
  - exfalso. apply Hne. unfold videoURLChange.
    destruct (String.eqb url (videoURL st)); [ reflexivity | ].
    now destruct (renderThrows (withVideoURL url st)).
Qed.

Lemma cursor_changes_only_by_edit_or_update_witness :
  let st := run update_second_run in
  (exists i, AddOrUpdate = EditCaption i
             /\ editingIndex (step st AddOrUpdate) = Some i)
  \/ (AddOrUpdate = AddOrUpdate /\ editingIndex (step st AddOrUpdate) = None
      /\ exists i st',
           editingIndex st = Some i
           /\ addOrUpdateCaption st = Some (st', toast_success msg_updated)).
Proof.
  intros st.
  apply (cursor_changes_only_by_edit_or_update st AddOrUpdate).
  vm_compute. discriminate.
Defined.

(** ** Exceptions *)

Lemma some_throws {A : Type} (cb : option A -> nat -> option bool)
    (a : list (slot A)) :
  JSArray.some cb a = None ->
  exists i v, a !! i = Some (elem v) /\ cb v i = None.
Proof.
  unfold JSArray.some. intros H.
  assert (Hin : exists i v, (i, v) ∈ JSArray.entries a /\ cb v i = None).
  { induction (JSArray.entries a) as [ | [k w] es IH ]; simpl in H;
      [ discriminate | ].
    destruct (cb w k) as [ [] | ] eqn:Hcb; simpl in H; try discriminate.
    - destruct (IH H) as (i & v & Hin & Hv). exists i, v.
      split; [ now right | assumption ].
    - exists k, w. split; [ left | assumption ]. }
  destruct Hin as (i & v & Hin & Hv). exists i, v.
  split; [ now apply elem_of_entries | assumption ].
Qed.

(** X9. [addOrUpdateCaption] throws when the draft is [undefined], and
    otherwise only when the list has an [undefined] element at an index
    other than the cursor: with a draft and a list of captions and holes
    it always returns, with one of the notifications. *)
Theorem submit_throws_only_on_undefined (st : App) :
  (currentCaption st = None -> addOrUpdateCaption st = None)
  /\ (addOrUpdateCaption st = None ->
      currentCaption st = None
      \/ exists i, captions st !! i = Some (elem None)
                   /\ Some i <> editingIndex st)
  /\ (is_Some (currentCaption st) ->
      (forall i, captions st !! i <> Some (elem None)) ->
      exists st' t, addOrUpdateCaption st = Some (st', t)).
Proof.
  assert (Hthrows : addOrUpdateCaption st = None ->
            currentCaption st = None
            \/ exists i, captions st !! i = Some (elem None)
                         /\ Some i <> editingIndex st).
  { unfold addOrUpdateCaption.
    destruct (currentCaption st) as [ c | ]; simpl; [ | auto ].
    destruct (negb (ToBoolean (text c)) || negb (ToBoolean (start c))
              || negb (ToBoolean (end_ c))); [ discriminate | ].
    destruct (ge (parseFloat (start c)) (parseFloat (end_ c)));
      [ discriminate | ].
    destruct (isOverlapping st _ _) as [ [] | ] eqn:Hov; simpl;
      [ discriminate | destruct (editingIndex st); discriminate | ].
    intros _. right. apply some_throws in Hov as (i & v & Hi & Hcb).
    unfold overlapsWith in Hcb. case_bool_decide; [ | discriminate ].
    destruct v; [ discriminate | ]. eauto. }
  split; [ | split ]; [ | exact Hthrows | ].
  - intros Hdraft. unfold addOrUpdateCaption. now rewrite Hdraft.
  - intros [c Hc] Hdef.
    destruct (addOrUpdateCaption st) as [ [st' t] | ] eqn:Hrun; [ eauto | ].
    destruct (Hthrows eq_refl) as [ H | (i & Hi & _) ]; [ congruence | ].
    now apply Hdef in Hi.
Qed.

Lemma submit_throws_only_on_undefined_witness :
  let st := run stale_update_run in
  exists st' t, addOrUpdateCaption st = Some (st', t).
Proof.
  intros st.
  apply (proj2 (proj2 (submit_throws_only_on_undefined st))).
  - vm_compute. eauto.
  - intros [ | [ | i ] ]; vm_compute; discriminate.
Defined.

(** X10. [handleEditCaption] at an index where the list has no caption
    (beyond the end, at a hole or at an [undefined] element) sets the
    cursor and makes the draft [undefined]: the next submission throws,
    and after a change of one field the draft has that field only, so that
    the submission is refused with "Please fill all fields.". *)
Theorem edit_without_caption (st : App) (index : nat) :
  JSArray.get (captions st) index = None ->
  let st1 := handleEditCaption index st in
  editingIndex st1 = Some index
  /\ currentCaption st1 = None
  /\ addOrUpdateCaption st1 = None
  /\ forall name v,
       let st2 := handleCaptionChange name v st1 in
       addOrUpdateCaption st2 = Some (st2, toast_error msg_fill).
Proof.
  intros Hget. simpl. repeat split.
  - exact Hget.
  - unfold addOrUpdateCaption. simpl. now rewrite Hget.
  - intros name v. unfold addOrUpdateCaption. simpl. rewrite Hget.
    destruct name; simpl; now rewrite ?orb_true_r.
Qed.

Lemma edit_without_caption_witness :
  let st := run (submit "A" "1" "2") in
  let st1 := handleEditCaption 3 st in
  editingIndex st1 = Some 3%nat
  /\ currentCaption st1 = None
  /\ addOrUpdateCaption st1 = None
  /\ forall name v,
       let st2 := handleCaptionChange name v st1 in
       addOrUpdateCaption st2 = Some (st2, toast_error msg_fill).
Proof.
  intros st. apply (edit_without_caption st 3). reflexivity.
Defined.

(** ** The debounce of the URL field *)

Lemma typing_snoc (vs : list string) (v : string) (ui : UI) :
  typing (vs ++ [v]) ui = handleVideoInputChange v (typing vs ui).
Proof. unfold typing. now rewrite fold_left_app. Qed.

Lemma app_typing (vs : list string) (ui : UI) : app (typing vs ui) = app ui.
Proof.
  revert ui. induction vs as [ | v vs IH ]; intros ui; [ reflexivity | ].
  unfold typing in *. simpl. now rewrite IH.
Qed.

(** X11. Changes of the URL field alone do not touch the component state;
    of a series of changes, the timer applies the last value only, and
    once: the video URL becomes that value and the cursor is kept. The
    captions are kept when the value is the current URL; when it is
    another one, they are emptied if the render with the new URL returns,
    and kept if that render throws, the effect not running then. A timer
    that fires again does nothing. *)
Theorem debounce_applies_last_value (ui : UI) (vs : list string) (v : string) :
  let ui1 := typing (vs ++ [v]) ui in
  let ui2 := timeoutFires ui1 in
  app ui1 = app ui
  /\ typedVideoURL ui1 = v
  /\ app ui2 = videoURLChange v (app ui)
  /\ videoURL (app ui2) = v
  /\ editingIndex (app ui2) = editingIndex (app ui)
  /\ captions (app ui2)
     = (if String.eqb v (videoURL (app ui)) then captions (app ui)
        else if renderThrows (withVideoURL v (app ui)) then captions (app ui)
        else [])
  /\ typedVideoURL ui2 = v
  /\ timeoutFires ui2 = ui2.
Proof.
  simpl. rewrite typing_snoc. unfold timeoutFires. simpl.
  rewrite app_typing. unfold videoURLChange.
  destruct (String.eqb_spec v (videoURL (app ui))) as [ Heq | Hne ].
  - repeat split. now rewrite Heq.
  - destruct (renderThrows (withVideoURL v (app ui))); repeat split.
Qed.

(** ** Rendering *)

Lemma appendCue_throws (vtt : string) (v : option Caption) (k : nat) :
  appendCue vtt v k = None <-> v = None.
Proof. unfold appendCue. destruct v; simpl; split; congruence. Qed.

Lemma forEach_cues_throws (es : list (nat * option Caption)) (vtt : string) :
  JSArray.forEach_entries appendCue es vtt = None <->
  exists k, (k, None) ∈ es.
Proof.
  revert vtt. induction es as [ | [k v] es IH ]; intros vtt; simpl.
  - split; [ discriminate | ]. intros (k & H). inversion H.
  - destruct v as [ c | ].
    + rewrite appendCue_block. simpl. rewrite IH. split.
      * intros (k' & H). exists k'. now right.
      * intros (k' & H). apply elem_of_cons in H as [ [=] | H ]. eauto.
    + simpl. split; [ | reflexivity ]. intros _. exists k. left.
Qed.

Lemma generateVTT_undefined (a : list (slot Caption)) :
  generateVTT a = None <-> exists i, a !! i = Some (elem None).
Proof.
  unfold generateVTT, JSArray.forEach. rewrite forEach_cues_throws.
  split; intros (i & H); exists i; now apply elem_of_entries.
Qed.

Lemma forEach_cues_prefix (es : list (nat * option Caption))
    (vtt out : string) :
  JSArray.forEach_entries appendCue es vtt = Some out ->
  exists rest, out = vtt +:+ rest.
Proof.
  revert vtt. induction es as [ | [k v] es IH ]; intros vtt; simpl.
  - intros [= <-]. exists "". clear.
    induction vtt as [ | a vtt IHv ]; [ reflexivity | ].
    rewrite append_cons. now rewrite <- IHv.
  - destruct v as [ c | ]; [ | discriminate ].
    rewrite appendCue_block. simpl. intros H.
    apply IH in H as (rest & ->). rewrite append_assoc. eauto.
Qed.

(** X12. [generateVTT] throws exactly when the list has an [undefined]
    element; holes are skipped, and the text that it returns otherwise
    starts with the header "WEBVTT" and a blank line. *)
Theorem generateVTT_throws_iff (a : list (slot Caption)) :
  (generateVTT a = None <-> exists i, a !! i = Some (elem None))
  /\ (forall vtt, generateVTT a = Some vtt ->
        exists rest, vtt = unlines ["WEBVTT"; ""] +:+ rest).
Proof.
  split; [ apply generateVTT_undefined | ].
  intros vtt H. unfold generateVTT, JSArray.forEach in H.
  now apply forEach_cues_prefix in H.
Qed.

Lemma renderItems_throws (es : list (nat * option Caption)) :
  mapM renderItem es = None <-> exists k, (k, None) ∈ es.
Proof.
  induction es as [ | [k v] es IH ]; simpl.
  - split; [ discriminate | ]. intros (k & H). inversion H.
  - destruct v as [ c | ]; simpl.
    + destruct (mapM renderItem es) as [ its | ] eqn:Hits; simpl.
      * split; [ discriminate | ]. intros (k' & H).
        apply elem_of_cons in H as [ [=] | H ].
        assert (Hnone : Some its = None) by (apply IH; eauto).
        discriminate Hnone.
      * split; [ | reflexivity ]. intros _.
        destruct (proj1 IH eq_refl) as (k' & H). exists k'. now right.
    + split; [ | reflexivity ]. intros _. exists k. left.
Qed.

(** X13. Rendering throws exactly when the video and the editor are shown
    (a URL is set and the video did not fail) and either the draft is
    [undefined] or the list has an [undefined] element. *)
Theorem render_throws_iff (ui : UI) :
  render ui = None <->
  editorShown (app ui) = true
  /\ (currentCaption (app ui) = None
      \/ exists i, captions (app ui) !! i = Some (elem None)).
Proof.
  unfold render. destruct (editorShown (app ui)); simpl.
  2: { split; [ discriminate | intros [ [=] _ ] ]. }
  destruct (Nat.ltb_spec 0 (length (captions (app ui)))) as [ Hlen | Hlen ].
  - destruct (generateVTT (captions (app ui))) as [ vtt | ] eqn:Hvtt; simpl.
    + destruct (currentCaption (app ui)) as [ c | ]; simpl;
        [ | split; auto ].
      destruct (mapM renderItem _) as [ its | ] eqn:Hits; simpl.
      * split; [ discriminate | ].
        intros [ _ [ [=] | Hex ] ].
        apply generateVTT_undefined in Hex. congruence.
      * split; [ | reflexivity ]. intros _. split; [ reflexivity | ].
        right. apply renderItems_throws in Hits as (k & Hk).
        exists k. now apply elem_of_entries.
    + split; [ | reflexivity ]. intros _. split; [ reflexivity | ].
      right. now apply generateVTT_undefined.
  - assert (Hnil : captions (app ui) = []).
    { destruct (captions (app ui)); [ reflexivity | simpl in Hlen; lia ]. }
    rewrite Hnil. simpl.
    destruct (currentCaption (app ui)) as [ c | ]; simpl.
    + split; [ discriminate | ].
      intros [ _ [ [=] | (i & Hi) ] ]. now rewrite lookup_nil in Hi.
    + split; auto.
Qed.

Lemma generateVTT_throws_iff_witness :
  exists rest,
    "WEBVTT

1
00:00:05.000 --> 00:00:06.000
C

" = unlines ["WEBVTT"; ""] +:+ rest.
Proof.
  apply (proj2 (generateVTT_throws_iff [elem (Some (caption "C" "5" "6")); hole])).
  vm_compute. reflexivity.
Defined.

(** ** Sequences of events without a stale cursor *)

Lemma generateVTT_dense (cs : list Caption) :
  generateVTT (dense cs) = Some (encode cs).
Proof.
  unfold generateVTT, JSArray.forEach, JSArray.entries, encode, dense.
  rewrite forEach_cues. reflexivity.
Qed.

Lemma dense_defined (cs : list Caption) (i : nat) :
  dense cs !! i <> Some (elem None).
Proof.
  rewrite lookup_dense. now destruct (cs !! i).
Qed.

Lemma step_well_formed (st : App) (ev : event) :
  well_formed st -> allowed st ev -> well_formed (step st ev).
Proof.
  intros (Hdense & Hdraft & Hcur) Hal.
  pose proof Hdense as (cs & Hcs).
  destruct ev as [ name v | | index | index | url | ]; simpl in *.
  - split; [ | split ]; eauto.
  - destruct (addOrUpdateCaption st) as [ [st' t] | ] eqn:Hrun;
      [ | split; [ | split ]; eauto ].
    destruct t as [ msg | msg ].
    { apply addOrUpdateCaption_error in Hrun as [-> _].
      split; [ | split ]; eauto. }
    apply addOrUpdateCaption_success in Hrun
      as (c & _ & _ & _ & Hcaps & Hblank & Hnone).
    split; [ | split ].
    + rewrite Hcaps, Hcs, spread_dense.
      destruct (editingIndex st) as [ i | ] eqn:Hei.
      * exists (<[i := c]> cs). apply set_dense.
        specialize (Hcur i eq_refl). now rewrite Hcs, length_dense in Hcur.
      * exists (cs ++ [c])%list. unfold dense. now rewrite fmap_app.
    + rewrite Hblank. eauto.
    + intros i Hi. rewrite Hnone in Hi. discriminate Hi.
  - split; [ | split ]; eauto.
    intros i [= <-]. destruct Hal as [c Hc]. unfold JSArray.get in Hc.
    destruct (captions st !! index) eqn:Hl; [ | discriminate ].
    now apply lookup_lt_Some in Hl.
  - split; [ | split ]; eauto.
    + exists (delete index cs). now rewrite Hcs, filter_dense.
    + intros i Hi. rewrite Hal in Hi. discriminate Hi.
  - unfold videoURLChange. destruct (String.eqb url (videoURL st)); simpl.
    + split; [ | split ]; eauto.
    + destruct (renderThrows (withVideoURL url st)); simpl.
      * split; [ | split ]; eauto.
      * split; [ | split ]; eauto.
        -- now exists [].
        -- intros i Hi. unfold withVideoURL in Hi. simpl in Hi.
           rewrite Hal in Hi. discriminate Hi.
  - split; [ | split ]; eauto.
Qed.

Lemma well_formed_initial : well_formed initial.
Proof.
  split; [ | split ]; simpl; eauto.
  - now exists [].
  - discriminate.
Qed.

(** X14. As long as no caption is deleted and the video is not changed
    while a caption is being edited, and a caption is selected for edition
    at an index where the list has one, the list never gets a hole or an
    [undefined] element, the draft is never [undefined] and the cursor
    stays within the list: rendering does not throw, no submission throws,
    and the track is the encoding of the captions in their order. *)
Theorem allowed_run_well_formed (evs : list event) :
  allowed_run initial evs ->
  let st := run evs in
  exists cs,
    captions st = dense cs
    /\ is_Some (currentCaption st)
    /\ (forall i, editingIndex st = Some i -> (i < length cs)%nat)
    /\ generateVTT (captions st) = Some (encode cs)
    /\ is_Some (addOrUpdateCaption st)
    /\ forall typed timer,
         is_Some (render {| app := st; typedVideoURL := typed;
                            debounceTimeout := timer |}).
Proof.
  intros Hal. simpl.
  assert (Hwf : well_formed (run evs)).
  { unfold run. revert Hal. generalize well_formed_initial. generalize initial.
    induction evs as [ | ev evs IH ]; intros st0 Hwf Hal; simpl;
      [ assumption | ].
    destruct Hal as [Hev Hal]. apply IH; [ | assumption ].
    now apply step_well_formed. }
  destruct Hwf as ((cs & Hcs) & Hdraft & Hcur). exists cs.
  split; [ assumption | ]. split; [ assumption | ]. split.
  { intros i Hi. specialize (Hcur i Hi). now rewrite Hcs, length_dense in Hcur. }
  split; [ rewrite Hcs; apply generateVTT_dense | ]. split.
  - destruct (addOrUpdateCaption (run evs)) as [ r | ] eqn:Hrun; [ eauto | ].
    exfalso. unfold addOrUpdateCaption in Hrun.
    destruct Hdraft as [c Hc]. rewrite Hc in Hrun. simpl in Hrun.
    destruct (negb (ToBoolean (text c)) || negb (ToBoolean (start c))
              || negb (ToBoolean (end_ c))); [ discriminate | ].
    destruct (ge (parseFloat (start c)) (parseFloat (end_ c)));
      [ discriminate | ].
    destruct (isOverlapping (run evs) _ _) as [ [] | ] eqn:Hov; simpl in Hrun;
      [ discriminate | destruct (editingIndex (run evs)); discriminate | ].
    apply some_throws in Hov as (i & v & Hi & Hcb).
    unfold overlapsWith in Hcb. case_bool_decide; [ | discriminate ].
    destruct v; [ discriminate | ].
    rewrite Hcs in Hi. now apply dense_defined in Hi.
  - intros typed timer.
    destruct (render _) as [ view | ] eqn:Hr; [ eauto | ]. exfalso.
    assert (Hthrow :
      editorShown (run evs) = true
      /\ (currentCaption (run evs) = None
          \/ exists i, captions (run evs) !! i = Some (elem None))).
    { revert Hr. unfold render. simpl.
      destruct (editorShown (run evs)); simpl; [ | discriminate ].
      rewrite Hcs, generateVTT_dense.
      destruct Hdraft as [c ->]. simpl.
      destruct (0 <? length (dense cs))%nat; simpl;
        (destruct (mapM renderItem (JSArray.entries (dense cs))) eqn:Hits;
         simpl; [ discriminate | ]);
        intros _; (split; [ reflexivity | right ]);
        apply renderItems_throws in Hits as (k & Hk);
        exists k; now apply elem_of_entries. }
    destruct Hthrow as [_ [ Hnone | (i & Hi) ] ].
    + destruct Hdraft as [c Hc]. congruence.
    + rewrite Hcs in Hi. now apply dense_defined in Hi.
Qed.

Lemma allowed_run_well_formed_witness :
  let evs := submit "A" "1" "2" ++ submit "B" "3" "4"
             ++ [EditCaption 1] ++ submit "B" "3" "5"
             ++ [DeleteCaption 0; VideoURL "next.mp4"] in
  let st := run evs in
  exists cs,
    captions st = dense cs
    /\ is_Some (currentCaption st)
    /\ (forall i, editingIndex st = Some i -> (i < length cs)%nat)
    /\ generateVTT (captions st) = Some (encode cs)
    /\ is_Some (addOrUpdateCaption st)
    /\ forall typed timer,
         is_Some (render {| app := st; typedVideoURL := typed;
                            debounceTimeout := timer |}).
Proof.
  intros evs.
  apply (allowed_run_well_formed evs).
  vm_compute. repeat split; eauto.
Defined.

(** ** The draft *)

(** X15. The three fields of the draft are independent: changes of two
    different fields commute, of two changes of one field the last one
    wins, and a change of a field touches neither the list, nor the
    cursor, nor the video. After the three fields have been set, the draft
    is the caption of the three values, whatever it was before. *)
Theorem draft_fields_independent (st : App) (n1 n2 : field_name)
    (v1 v2 : string) :
  (n1 <> n2 ->
   handleCaptionChange n1 v1 (handleCaptionChange n2 v2 st)
   = handleCaptionChange n2 v2 (handleCaptionChange n1 v1 st))
  /\ handleCaptionChange n1 v1 (handleCaptionChange n1 v2 st)
     = handleCaptionChange n1 v1 st
  /\ captions (handleCaptionChange n1 v1 st) = captions st
  /\ editingIndex (handleCaptionChange n1 v1 st) = editingIndex st
  /\ videoURL (handleCaptionChange n1 v1 st) = videoURL st
  /\ (forall t s e,
        currentCaption (fold_left step (fill t s e) st) = Some (caption t s e)).
Proof.
  repeat split.
  - intros Hne. unfold handleCaptionChange.
    destruct n1, n2; try (now destruct Hne); simpl;
      destruct (currentCaption st); reflexivity.
  - unfold handleCaptionChange. destruct n1; simpl;
      destruct (currentCaption st); reflexivity.
Qed.

Lemma draft_fields_independent_witness :
  let st := run (submit "A" "1" "2" ++ [EditCaption 0]) in
  handleCaptionChange name_start "3"
    (handleCaptionChange name_end "4" st)
  = handleCaptionChange name_end "4"
      (handleCaptionChange name_start "3" st).
Proof.
  intros st.
  apply (proj1 (draft_fields_independent st name_start name_end "3" "4")).
  discriminate.
Defined.

(** ** Timestamps *)

Lemma decimal_digits_head (n : nat) (s : string) :
  decimal_digits (S n) s ->
  exists a s', s = String a s' /\ is_digit a = true.
Proof.
  intros [Hlen Hall]. destruct s as [ | a s' ]; [ discriminate | ].
  simpl in Hall. apply andb_true_iff in Hall as [Ha _]. eauto.
Qed.

(** X16. [formatTime] returns "NaN:NaN:NaN.NaN" exactly when the date of
    its argument is invalid; this is the case when the argument converts
    to NaN, as [undefined] and the strings that are not numeric literals
    do. *)
Theorem formatTime_NaN_iff_invalid {A : Type} `{ToNumber A} (seconds : A) :
  (formatTime seconds = "NaN:NaN:NaN.NaN" <->
   Date.new (mul (to_number seconds) (of_Z 1000)) = None)
  /\ (is_nan (to_number seconds) = true ->
      formatTime seconds = "NaN:NaN:NaN.NaN").
Proof.
  assert (Hinv : Date.new (mul (to_number seconds) (of_Z 1000)) = None ->
                 formatTime seconds = "NaN:NaN:NaN.NaN")
    by apply formatTime_invalid.
  split; [ split; [ | exact Hinv ] | ].
  - intros Hfmt.
    destruct (Date.new (mul (to_number seconds) (of_Z 1000))) as [ tv | ] eqn:Hd;
      [ exfalso | reflexivity ].
    revert Hfmt. unfold formatTime. rewrite Hd. simpl.
    assert (Hh : 0 <= (tv / Date.msPerHour) mod 24 < 100).
    { pose proof (Z.mod_pos_bound (tv / Date.msPerHour) 24). lia. }
    destruct (decimal_digits_head 1 _ (padStart_two_digits _ Hh))
      as (a & s' & -> & Ha).
    rewrite append_cons. intros [= -> _]. discriminate Ha.
  - intros Hnan. apply Hinv.
    destruct (to_number seconds); try discriminate. reflexivity.
Qed.

Lemma formatTime_NaN_iff_invalid_witness :
  formatTime (Str "3x") = "NaN:NaN:NaN.NaN".
Proof.
  apply (proj2 (formatTime_NaN_iff_invalid (Str "3x"))).
  vm_compute. reflexivity.
Defined.

(** ** [parseFloat] and the conversion to a Number *)

Section Literals.

Lemma white_not_in_literal (c : ascii) :
  is_white c = true ->
  is_digit c = false
  /\ Ascii.eqb c "." = false /\ Ascii.eqb c "e" = false
  /\ Ascii.eqb c "E" = false /\ Ascii.eqb c "-" = false
  /\ Ascii.eqb c "+" = false.
Proof.
  destruct c as [ [] [] [] [] [] [] [] [] ]; vm_compute; intros H;
    first [ discriminate H | repeat split ].
Qed.

Lemma trim_start_split (l : list ascii) :
  exists w, Forall (fun c => is_white c = true) w /\ l = w ++ trim_start l.
Proof.
  induction l as [ | c l (w & Hw & IH) ]; simpl.
  - now exists [].
  - destruct (is_white c) eqn:Hc.
    + exists (c :: w). split; [ now constructor | ]. simpl. now f_equal.
    + now exists [].
Qed.

Lemma trim_start_trim (l : list ascii) :
  exists w, white_or_end w /\ trim_start l = trim l ++ w.
Proof.
  unfold trim.
  destruct (trim_start_split (rev (trim_start l))) as (w & Hw & Hsplit).
  exists (rev w). split.
  - apply Forall_rev in Hw. destruct (rev w) as [ | c w' ]; [ exact I | ].
    simpl. now apply Forall_cons in Hw as [Hc _].
  - rewrite <- (rev_involutive (trim_start l)) at 1.
    rewrite Hsplit at 1. now rewrite rev_app_distr.
Qed.

Lemma span_digits_app (l w ds r : list ascii) :
  span_digits l = (ds, r) -> white_or_end w ->
  span_digits (l ++ w) = (ds, r ++ w).
Proof.
  intros Hl Hw. revert ds r Hl.
  induction l as [ | c l IH ]; intros ds r; simpl.
  - intros [= <- <-]. destruct w as [ | c w ]; [ reflexivity | ].
    simpl in *. now destruct (white_not_in_literal c Hw) as (-> & _).
  - destruct (is_digit c).
    + destruct (span_digits l) as [ds' r'] eqn:Hs.
      rewrite (IH ds' r' eq_refl). now intros [= <- <-].
    + now intros [= <- <-].
Qed.

Lemma strip_prefix_app (p l w : list ascii) :
  Forall (fun a => is_white a = false) p -> white_or_end w ->
  strip_prefix p (l ++ w) = (fun r => r ++ w) <$> strip_prefix p l.
Proof.
  intros Hp Hw. revert l. induction Hp as [ | a p Ha Hp IH ]; intros l.
  - now destruct l.
  - destruct l as [ | b l ]; simpl.
    + destruct w as [ | c w ]; [ reflexivity | ]. simpl in *.
      destruct (Ascii.eqb_spec a c) as [ -> | ]; [ congruence | reflexivity ].
    + destruct (Ascii.eqb a b); [ apply IH | reflexivity ].
Qed.

Lemma exponent_part_app (l w r : list ascii) (e : Z) :
  exponent_part l = (e, r) -> white_or_end w ->
  exponent_part (l ++ w) = (e, r ++ w).
Proof.
  intros Hl Hw. destruct l as [ | c l ].
  - simpl in Hl. injection Hl as <- <-. simpl.
    destruct w as [ | c w ]; [ reflexivity | ]. simpl in Hw.
    destruct (white_not_in_literal c Hw) as (_ & _ & He & HE & _).
    unfold exponent_part. now rewrite He, HE.
  - revert Hl. unfold exponent_part. simpl.
    destruct (Ascii.eqb c "e" || Ascii.eqb c "E"); [ | now intros [= <- <-] ].
    assert (Hsign :
      forall r1 neg,
        (let '(neg', r1') :=
           match l with
           | s :: r' => if Ascii.eqb s "-" then (true, r')
                        else if Ascii.eqb s "+" then (false, r')
                        else (false, l)
           | [] => (false, l)
           end in (neg', r1')) = (neg, r1) ->
        (let '(neg', r1') :=
           match l ++ w with
           | s :: r' => if Ascii.eqb s "-" then (true, r')
                        else if Ascii.eqb s "+" then (false, r')
                        else (false, l ++ w)
           | [] => (false, l ++ w)
           end in (neg', r1')) = (neg, r1 ++ w)).
    { intros r1 neg. destruct l as [ | s l' ]; simpl.
      - intros [= <- <-]. destruct w as [ | c' w' ]; [ reflexivity | ].
        simpl in Hw.
        destruct (white_not_in_literal c' Hw) as (_ & _ & _ & _ & -> & ->).
        reflexivity.
      - destruct (Ascii.eqb s "-"); [ now intros [= <- <-] | ].
        destruct (Ascii.eqb s "+"); now intros [= <- <-]. }
    destruct (match l with
              | s :: r' => if Ascii.eqb s "-" then (true, r')
                           else if Ascii.eqb s "+" then (false, r')
                           else (false, l)
              | [] => (false, l)
              end) as [neg r1] eqn:Hs.
    specialize (Hsign r1 neg eq_refl). simpl in Hsign.
    destruct (match l ++ w with
              | s :: r' => if Ascii.eqb s "-" then (true, r')
                           else if Ascii.eqb s "+" then (false, r')
                           else (false, l ++ w)
              | [] => (false, l ++ w)
              end) as [neg' r1'] eqn:Hs'.
    injection Hsign as -> ->.
    destruct (span_digits r1) as [ds r2] eqn:Hd.
    rewrite (span_digits_app r1 w ds r2 Hd Hw).
    destruct ds; now intros [= <- <-].
Qed.

End Literals.

Lemma Infinity_not_white :
  Forall (fun a => is_white a = false) (list_ascii_of_string "Infinity").
Proof. repeat constructor. Qed.

Lemma unsigned_decimal_app (s : bool) (l w r : list ascii) (x : number) :
  unsigned_decimal s l = Some (x, r) -> white_or_end w ->
  unsigned_decimal s (l ++ w) = Some (x, r ++ w).
Proof.
  intros Hl Hw. revert Hl. unfold unsigned_decimal.
  rewrite (strip_prefix_app _ l w Infinity_not_white Hw).
  destruct (strip_prefix (list_ascii_of_string "Infinity") l) as [ r0 | ];
    simpl; [ now intros [= <- <-] | ].
  destruct (span_digits l) as [ip r1] eqn:Hip.
  rewrite (span_digits_app l w ip r1 Hip Hw).
  assert (Hfrac : forall fp r2,
    (let '(e, r3) := exponent_part r2 in
     Some (of_decimal s (digits_value (ip ++ fp))
             (e - Z.of_nat (length fp)), r3)) = Some (x, r) ->
    (let '(e, r3) := exponent_part (r2 ++ w) in
     Some (of_decimal s (digits_value (ip ++ fp))
             (e - Z.of_nat (length fp)), r3)) = Some (x, r ++ w)).
  { intros fp r2. destruct (exponent_part r2) as [e r3] eqn:He.
    rewrite (exponent_part_app r2 w r3 e He Hw). now intros [= <- <-]. }
  destruct r1 as [ | c r1' ].
  - simpl. destruct ip as [ | d ip' ]; [ discriminate | ].
    intros H. destruct w as [ | c w' ].
    + apply (Hfrac [] []) in H. exact H.
    + simpl in Hw.
      destruct (white_not_in_literal c Hw) as (_ & -> & _).
      apply (Hfrac [] []) in H. exact H.
  - simpl. destruct (Ascii.eqb c ".").
    + destruct (span_digits r1') as [fp r2] eqn:Hfp.
      rewrite (span_digits_app r1' w fp r2 Hfp Hw).
      destruct ip as [ | d ip' ], fp as [ | f fp' ]; try discriminate;
        apply Hfrac.
    + destruct ip as [ | d ip' ]; [ discriminate | ].
      apply (Hfrac [] (c :: r1')).
Qed.

Lemma decimal_literal_app (l w r : list ascii) (x : number) :
  decimal_literal l = Some (x, r) -> white_or_end w ->
  decimal_literal (l ++ w) = Some (x, r ++ w).
Proof.
  intros Hl Hw. destruct l as [ | c l ]; [ discriminate | ].
  revert Hl. simpl.
  destruct (Ascii.eqb c "-"); [ intros H; now apply unsigned_decimal_app | ].
  destruct (Ascii.eqb c "+"); [ intros H; now apply unsigned_decimal_app | ].
  intros H. now apply (unsigned_decimal_app false (c :: l)).
Qed.

(** A string that is a decimal literal to its end is not one of the
    literals [0x...], [0o...] and [0b...]. *)
Lemma decimal_not_non_decimal (l : list ascii) (x : number) :
  decimal_literal l = Some (x, []) -> non_decimal_literal l = None.
Proof.
  intros Hl. destruct l as [ | z [ | k [ | d ds ] ] ]; try reflexivity.
  simpl. destruct (Ascii.eqb_spec z "0") as [ -> | ]; [ | reflexivity ].
  assert (Hk : forall k', k = k' -> is_digit k' = false ->
                 Ascii.eqb k' "." = false ->
                 Ascii.eqb k' "e" || Ascii.eqb k' "E" = false -> False).
  { intros k' -> Hd Hdot He. revert Hl.
    unfold decimal_literal, unsigned_decimal. simpl.
    rewrite Hd. simpl. rewrite Hdot.
    unfold exponent_part. rewrite He. discriminate. }
  destruct (Ascii.eqb_spec k "x"); [ exfalso; eapply Hk; eauto | ].
  destruct (Ascii.eqb_spec k "X"); [ exfalso; eapply Hk; eauto | ].
  destruct (Ascii.eqb_spec k "o"); [ exfalso; eapply Hk; eauto | ].
  destruct (Ascii.eqb_spec k "O"); [ exfalso; eapply Hk; eauto | ].
  destruct (Ascii.eqb_spec k "b"); [ exfalso; eapply Hk; eauto | ].
  destruct (Ascii.eqb_spec k "B"); [ exfalso; eapply Hk; eauto | ].
  reflexivity.
Qed.

(** X17. For a string that is, white space at both ends apart, a decimal
    literal to its end, [parseFloat] and the conversion that the
    arithmetic operators apply give the same Number: the time that
    [formatTime] formats is the time that [addOrUpdateCaption] compared. *)
Theorem parseFloat_agrees_with_ToNumber (s : string) (x : number) :
  decimal_literal (trim (list_ascii_of_string s)) = Some (x, []) ->
  parseFloat (Str s) = x
  /\ to_number (Str s) = x
  /\ formatTime (Str s) = formatTime (parseFloat (Str s)).
Proof.
  intros Hlit.
  assert (Hpf : parseFloat (Str s) = x).
  { unfold parseFloat, Text.parseFloat. simpl.
    destruct (trim_start_trim (list_ascii_of_string s)) as (w & Hw & ->).
    now rewrite (decimal_literal_app _ w [] x Hlit Hw). }
  assert (Hnum : to_number (Str s) = x).
  { unfold to_number, value_ToNumber, StringToNumber.
    destruct (trim (list_ascii_of_string s)) as [ | a l' ];
      [ discriminate | ].
    now rewrite (decimal_not_non_decimal _ x Hlit), Hlit. }
  repeat split; auto.
  unfold formatTime. rewrite Hpf, Hnum. reflexivity.
Qed.

Lemma parseFloat_agrees_with_ToNumber_witness :
  parseFloat (Str " 3661.5 ") = of_ratio false 7323 2
  /\ to_number (Str " 3661.5 ") = of_ratio false 7323 2
  /\ formatTime (Str " 3661.5 ") = formatTime (parseFloat (Str " 3661.5 ")).
Proof.
  apply (parseFloat_agrees_with_ToNumber " 3661.5 " (of_ratio false 7323 2)).
  vm_compute. reflexivity.
Defined.

(** ** Whole seconds *)

(** The rounding of the Standard Library on integers below 2^53: nothing
    is rounded off. *)

Lemma iter_pos_nat {A : Type} (f : A -> A) (n : positive) (x : A) :
  @SpecFloat.iter_pos A f n x = Nat.iter (Pos.to_nat n) f x.
Proof.
  revert x. induction n as [ n IH | n IH | ]; intros x;
    cbn [SpecFloat.iter_pos].
  - rewrite !IH. rewrite Pos2Nat.inj_xI.
    replace (S (2 * Pos.to_nat n)) with (Pos.to_nat n + S (Pos.to_nat n))%nat by lia.
    rewrite Nat.iter_add. f_equal. now rewrite Nat.iter_succ_r.
  - rewrite !IH. rewrite Pos2Nat.inj_xO.
    replace (2 * Pos.to_nat n)%nat with (Pos.to_nat n + Pos.to_nat n)%nat by lia.
    now rewrite Nat.iter_add.
  - reflexivity.
Qed.

Lemma shr_iter_xO (q k : positive) :
  @SpecFloat.iter_pos _ shr_1 k {| shr_m := Zpos (Pos.iter xO q k); shr_r := false; shr_s := false |}
  = {| shr_m := Zpos q; shr_r := false; shr_s := false |}.
Proof.
  rewrite iter_pos_nat, Pos2Nat.inj_iter.
  induction (Pos.to_nat k) as [ | n IH ]; [ reflexivity | ].
  rewrite Nat.iter_succ_r. simpl. exact IH.
Qed.

Lemma digits_iter_xO (q k : positive) :
  digits2_pos (Pos.iter xO q k) = (digits2_pos q + k)%positive.
Proof.
  rewrite Pos2Nat.inj_iter.
  rewrite <- (Pos2Nat.id k) at 2.
  pose proof (Pos2Nat.is_pos k) as Hk.
  induction (Pos.to_nat k) as [ | n IH ]; [ lia | ].
  simpl. destruct n as [ | n ].
  - simpl. lia.
  - rewrite IH by lia. lia.
Qed.

Lemma fexp_normal (z : Z) : -1021 <= z -> fexp prec emax z = z - 53.
Proof. unfold fexp, emin, prec, emax. lia. Qed.

Lemma binary_round_aux_exact (m : positive) (e : Z) :
  fexp prec emax (Zpos (digits2_pos m) + e) <= e -> e <= 971 ->
  binary_round_aux prec emax false (Zpos m) e loc_Exact = S754_finite false m e.
Proof.
  intros Hf He. unfold binary_round_aux, shr_fexp, shr. simpl Zdigits2.
  destruct (fexp prec emax (Zpos (digits2_pos m) + e) - e) as [ | k | k ] eqn:Hk;
    try lia; simpl; rewrite Hk;
    (destruct (Z.leb_spec e (emax - prec)); [ reflexivity | unfold emax, prec in *; lia ]).
Qed.

Lemma binary_round_aux_shift (q k : positive) (e : Z) :
  fexp prec emax (Zpos (digits2_pos q) + Zpos k + e) = e + Zpos k ->
  e + Zpos k <= 971 ->
  binary_round_aux prec emax false (Zpos (Pos.iter xO q k)) e loc_Exact
  = S754_finite false q (e + Zpos k).
Proof.
  intros Hf He. unfold binary_round_aux, shr_fexp, shr. simpl Zdigits2.
  rewrite digits_iter_xO.
  replace (Zpos (digits2_pos q + k) + e) with (Zpos (digits2_pos q) + Zpos k + e) by lia.
  rewrite Hf. replace (e + Zpos k - e) with (Zpos k) by lia.
  simpl shr_record_of_loc. rewrite shr_iter_xO. simpl.
  replace (Zpos (digits2_pos q) + (e + Zpos k)) with (Zpos (digits2_pos q) + Zpos k + e) by lia.
  rewrite Hf, Z.sub_diag.
  destruct (Z.leb_spec (e + Zpos k) (emax - prec)); [ reflexivity | unfold emax, prec in *; lia ].
Qed.

Lemma digits2_bounds (p : positive) :
  2 ^ (Zpos (digits2_pos p) - 1) <= Zpos p < 2 ^ Zpos (digits2_pos p).
Proof.
  induction p as [ p IH | p IH | ]; simpl digits2_pos.
  - rewrite Pos2Z.inj_succ. replace (Z.succ (Zpos (digits2_pos p)) - 1)
      with (Z.succ (Zpos (digits2_pos p) - 1)) by lia.
    rewrite !Z.pow_succ_r by lia. lia.
  - rewrite Pos2Z.inj_succ. replace (Z.succ (Zpos (digits2_pos p)) - 1)
      with (Z.succ (Zpos (digits2_pos p) - 1)) by lia.
    rewrite !Z.pow_succ_r by lia. lia.
  - simpl. lia.
Qed.

Lemma digits2_le (p : positive) (n : Z) :
  0 <= n -> Zpos p < 2 ^ n -> Zpos (digits2_pos p) <= n.
Proof.
  intros Hn Hp. destruct (digits2_bounds p) as [Hlo _].
  destruct (Z.le_gt_cases (Zpos (digits2_pos p)) n) as [ | Hgt ]; [ assumption | ].
  assert (2 ^ n <= 2 ^ (Zpos (digits2_pos p) - 1))
    by (apply Z.pow_le_mono_r; lia).
  lia.
Qed.

Lemma Zpos_iter_xO_nat (p : positive) (n : nat) :
  Zpos (nat_rect (fun _ => positive) p (fun _ => xO) n)
  = Zpos p * 2 ^ Z.of_nat n.
Proof.
  induction n as [ | n IH ].
  - simpl nat_rect. change (Z.of_nat 0) with 0. rewrite Z.pow_0_r. lia.
  - rewrite Nat2Z.inj_succ, Z.pow_succ_r by lia. simpl nat_rect.
    rewrite Pos2Z.inj_xO, IH. lia.
Qed.

Lemma Zpos_shiftl (p : positive) (n : N) :
  Zpos (Pos.shiftl p n) = Zpos p * 2 ^ Z.of_N n.
Proof.
  destruct n as [ | k ]; unfold Pos.shiftl.
  - change (Z.of_N 0) with 0. rewrite Z.pow_0_r. lia.
  - rewrite Pos2Nat.inj_iter, Zpos_iter_xO_nat, positive_nat_Z. reflexivity.
Qed.

Lemma normal_of_Z (p : positive) :
  Zpos p < 2 ^ 53 -> of_Z (Zpos p) = normal p.
Proof.
  intros Hp. pose proof (digits2_le p 53 ltac:(lia) Hp) as Hd.
  unfold of_Z, normal, binary_normalize, binary_round, shl_align.
  set (d := Zpos (digits2_pos p)) in *.
  assert (Hd1 : 1 <= d) by (unfold d; lia).
  rewrite Z.add_0_r, fexp_normal by lia.
  destruct (53 - d) as [ | s | s ] eqn:Hs; try lia.
  - replace (d - 53) with 0 by lia. unfold Z.to_N, Pos.shiftl. simpl Z.sub.
    cbv iota. apply binary_round_aux_exact; [ | lia ].
    fold d. rewrite fexp_normal by lia. lia.
  - replace (d - 53) with (Zneg s) by lia. unfold Z.to_N, Pos.shiftl.
    simpl Z.sub. cbv iota. apply binary_round_aux_exact; [ | lia ].
    rewrite digits_iter_xO, Pos2Z.inj_add. fold d.
    rewrite fexp_normal by lia. lia.
Qed.

Lemma truncate_normal (p : positive) :
  Zpos p < 2 ^ 53 -> truncate (normal p) = Some (Zpos p).
Proof.
  intros Hp. pose proof (digits2_le p 53 ltac:(lia) Hp) as Hd.
  unfold normal, truncate. set (d := Zpos (digits2_pos p)) in *.
  f_equal. rewrite Zpos_shiftl, Z2N.id by lia.
  destruct (d - 53) as [ | e | e ] eqn:He; try lia.
  - replace (53 - d) with 0 by lia.
    rewrite Z.shiftl_0_r, Z.pow_0_r. lia.
  - replace (53 - d) with (Zpos e) by lia.
    rewrite Z.shiftr_div_pow2 by lia. apply Z.div_mul. lia.
Qed.

Lemma abs_gt_Z_normal (p : positive) (z : Z) :
  Zpos p < 2 ^ 53 -> 0 <= z -> abs_gt_Z (normal p) z = (z <? Zpos p).
Proof.
  intros Hp Hz. pose proof (digits2_le p 53 ltac:(lia) Hp) as Hd.
  unfold normal, abs_gt_Z. set (d := Zpos (digits2_pos p)) in *.
  rewrite Zpos_shiftl, Z2N.id by lia.
  destruct (d - 53) as [ | e | e ] eqn:He; try lia.
  - replace (53 - d) with 0 by lia.
    rewrite Z.shiftl_0_r, Z.pow_0_r. f_equal. lia.
  - replace (53 - d) with (Zpos e) by lia.
    rewrite Z.shiftl_mul_pow2 by lia.
    assert (0 < 2 ^ Zpos e) by (apply Z.pow_pos_nonneg; lia).
    destruct (Z.ltb_spec z (Zpos p)), (Z.ltb_spec (z * 2 ^ Zpos e) (Zpos p * 2 ^ Zpos e));
      try reflexivity; nia.
Qed.

Lemma digits_shiftl (p : positive) (n : N) :
  Zpos (digits2_pos (Pos.shiftl p n)) = Zpos (digits2_pos p) + Z.of_N n.
Proof.
  destruct n as [ | k ]; unfold Pos.shiftl.
  - change (Z.of_N 0) with 0. lia.
  - rewrite digits_iter_xO. change (Z.of_N (Npos k)) with (Zpos k). lia.
Qed.

Lemma digits2_mul (a b : positive) :
  Zpos (digits2_pos a) + Zpos (digits2_pos b) - 1
  <= Zpos (digits2_pos (a * b)).
Proof.
  destruct (digits2_bounds a) as [Ha _]. destruct (digits2_bounds b) as [Hb _].
  destruct (digits2_bounds (a * b)) as [_ Hab].
  set (da := Zpos (digits2_pos a)) in *. set (db := Zpos (digits2_pos b)) in *.
  set (dab := Zpos (digits2_pos (a * b))) in *.
  assert (Hda : 1 <= da) by (unfold da; lia).
  assert (Hdb : 1 <= db) by (unfold db; lia).
  destruct (Z.le_gt_cases (da + db - 1) dab) as [ | Hgt ]; [ assumption | ].
  assert (Hpow : 2 ^ dab <= 2 ^ (da - 1 + (db - 1)))
    by (apply Z.pow_le_mono_r; lia).
  rewrite Z.pow_add_r in Hpow by lia.
  rewrite Pos2Z.inj_mul in Hab.
  assert (0 < 2 ^ (da - 1)) by (apply Z.pow_pos_nonneg; lia).
  assert (0 < 2 ^ (db - 1)) by (apply Z.pow_pos_nonneg; lia).
  nia.
Qed.

Lemma mul_normal (a b : positive) :
  Zpos (a * b) < 2 ^ 53 ->
  mul (normal a) (normal b) = normal (a * b).
Proof.
  intros Hab.
  assert (Ha : Zpos a < 2 ^ 53) by (rewrite Pos2Z.inj_mul in Hab; nia).
  assert (Hb : Zpos b < 2 ^ 53) by (rewrite Pos2Z.inj_mul in Hab; nia).
  pose proof (digits2_le a 53 ltac:(lia) Ha) as Hda.
  pose proof (digits2_le b 53 ltac:(lia) Hb) as Hdb.
  pose proof (digits2_le (a * b) 53 ltac:(lia) Hab) as Hdab.
  pose proof (digits2_mul a b) as Hmul.
  unfold mul, normal, SFmul. simpl xorb.
  set (da := Zpos (digits2_pos a)) in *. set (db := Zpos (digits2_pos b)) in *.
  set (dab := Zpos (digits2_pos (a * b))) in *.
  assert (Hda1 : 1 <= da) by (unfold da; lia).
  assert (Hdb1 : 1 <= db) by (unfold db; lia).
  set (q := Pos.shiftl (a * b) (Z.to_N (53 - dab))).
  destruct (53 - da - db + dab) as [ | k | k ] eqn:Hk; try lia.
  assert (Hm : (Pos.shiftl a (Z.to_N (53 - da)) * Pos.shiftl b (Z.to_N (53 - db)))%positive
               = Pos.iter xO q k).
  { apply Pos2Z.inj. change (Pos.iter xO q k) with (Pos.shiftl q (Npos k)).
    unfold q. rewrite Pos2Z.inj_mul, !Zpos_shiftl, !Z2N.id by lia.
    rewrite Pos2Z.inj_mul. change (Z.of_N (Npos k)) with (Zpos k).
    replace (Zpos a * 2 ^ (53 - da) * (Zpos b * 2 ^ (53 - db)))
      with (Zpos a * Zpos b * (2 ^ (53 - da) * 2 ^ (53 - db))) by ring.
    replace (Zpos a * Zpos b * 2 ^ (53 - dab) * 2 ^ Zpos k)
      with (Zpos a * Zpos b * (2 ^ (53 - dab) * 2 ^ Zpos k)) by ring.
    rewrite <- !Z.pow_add_r by lia. do 2 f_equal. lia. }
  rewrite Hm.
  assert (Hq : Zpos (digits2_pos q) = 53).
  { unfold q. rewrite digits_shiftl, Z2N.id by lia. fold dab. lia. }
  rewrite binary_round_aux_shift.
  - f_equal. lia.
  - rewrite Hq. rewrite fexp_normal by lia. lia.
  - lia.
Qed.

Lemma div_eucl_1 (z : Z) : Z.div_eucl z 1 = (z, 0).
Proof.
  pose proof (Z.div_1_r z) as Hd. pose proof (Z.mod_1_r z) as Hm.
  unfold Z.div, Z.modulo in Hd, Hm.
  destruct (Z.div_eucl z 1) as [q r]. simpl in *. congruence.
Qed.

Lemma of_ratio_one (p : positive) :
  Zpos p < 2 ^ 53 -> of_ratio false (Zpos p) 1 = normal p.
Proof.
  intros Hp. pose proof (digits2_le p 53 ltac:(lia) Hp) as Hd.
  unfold of_ratio, SFdiv, SFdiv_core_binary, normal. simpl xorb.
  simpl Zdigits2. set (d := Zpos (digits2_pos p)) in *.
  assert (Hd1 : 1 <= d) by (unfold d; lia).
  replace (d + 0 - (1 + 0)) with (d - 1) by lia.
  rewrite fexp_normal by lia.
  replace (Z.min (d - 1 - 53) (0 - 0)) with (d - 54) by lia.
  replace (0 - 0 - (d - 54)) with (54 - d) by lia.
  destruct (54 - d) as [ | s | s ] eqn:Hs; try lia.
  rewrite div_eucl_1.
  set (q := Pos.shiftl p (Z.to_N (53 - d))).
  assert (Hm : Z.shiftl (Zpos p) (Zpos s) = Zpos (Pos.iter xO q 1)).
  { rewrite Z.shiftl_mul_pow2 by lia. change (Pos.iter xO q 1) with (xO q).
    rewrite (Pos2Z.inj_xO q). unfold q. rewrite Zpos_shiftl, Z2N.id by lia.
    replace (Zpos s) with (1 + (53 - d)) by lia.
    rewrite Z.pow_add_r by lia. lia. }
  rewrite Hm. change (new_location 1 0) with loc_Exact.
  assert (Hq : Zpos (digits2_pos q) = 53).
  { unfold q. rewrite digits_shiftl, Z2N.id by lia. fold d. lia. }
  rewrite binary_round_aux_shift.
  - f_equal. lia.
  - rewrite Hq. rewrite fexp_normal by lia. lia.
  - lia.
Qed.

Lemma digit_facts (c : ascii) :
  is_digit c = true ->
  is_white c = false /\ Ascii.eqb c "-" = false /\ Ascii.eqb c "+" = false
  /\ Ascii.eqb "I" c = false /\ 0 <= digit_value c <= 9.
Proof.
  destruct c as [ [] [] [] [] [] [] [] [] ]; vm_compute; intros H;
    first [ discriminate H | repeat split; discriminate ].
Qed.

Lemma span_digits_all (ds : list ascii) :
  Forall (fun c => is_digit c = true) ds -> span_digits ds = (ds, []).
Proof.
  induction 1 as [ | c ds Hc _ IH ]; simpl; [ reflexivity | ].
  now rewrite Hc, IH.
Qed.

Lemma trim_start_digits (ds : list ascii) :
  Forall (fun c => is_digit c = true) ds -> trim_start ds = ds.
Proof.
  intros H. destruct H as [ | c ds Hc _ ]; [ reflexivity | ].
  simpl. now destruct (digit_facts c Hc) as (-> & _).
Qed.

Lemma trim_digits (ds : list ascii) :
  Forall (fun c => is_digit c = true) ds -> trim ds = ds.
Proof.
  intros H. unfold trim. rewrite (trim_start_digits ds H).
  rewrite trim_start_digits by now apply Forall_rev.
  apply rev_involutive.
Qed.

Lemma fold_digits_nonneg (ds : list ascii) (acc : Z) :
  Forall (fun c => is_digit c = true) ds -> 0 <= acc ->
  0 <= fold_left (fun a c => 10 * a + digit_value c) ds acc.
Proof.
  intros H. revert acc.
  induction H as [ | c ds Hc _ IH ]; intros acc Hacc; simpl; [ assumption | ].
  apply IH. destruct (digit_facts c Hc) as (_ & _ & _ & _ & Hv). lia.
Qed.

Lemma decimal_literal_digits (ds : list ascii) :
  ds <> [] -> Forall (fun c => is_digit c = true) ds ->
  decimal_literal ds = Some (of_decimal false (digits_value ds) 0, []).
Proof.
  intros Hne Hds. destruct ds as [ | c ds' ]; [ congruence | ].
  pose proof Hds as Hall. apply Forall_cons in Hall as [Hc _].
  destruct (digit_facts c Hc) as (_ & Hm & Hp & HI & _).
  unfold decimal_literal. rewrite Hm, Hp. unfold unsigned_decimal.
  cbn [list_ascii_of_string strip_prefix]. rewrite HI.
  rewrite span_digits_all by assumption.
  cbn [exponent_part]. now rewrite app_nil_r.
Qed.

Lemma of_decimal_whole (n : Z) :
  0 <= n < 2 ^ 53 -> of_decimal false n 0 = of_Z n.
Proof.
  intros Hn. unfold of_decimal. simpl Z.leb. cbv iota.
  change (10 ^ 0) with 1. rewrite Z.mul_1_r.
  destruct n as [ | p | p ]; [ reflexivity | | lia ].
  rewrite of_ratio_one, normal_of_Z by lia. reflexivity.
Qed.

Lemma date_of_whole_seconds (n : Z) :
  0 <= n <= 8640000000000 ->
  Date.new (mul (of_Z n) (of_Z 1000)) = Some (n * 1000).
Proof.
  intros Hn. destruct n as [ | p | p ]; [ reflexivity | | lia ].
  assert (Hp : Zpos (p * 1000) < 2 ^ 53).
  { rewrite Pos2Z.inj_mul. change (2 ^ 53) with 9007199254740992. lia. }
  rewrite (normal_of_Z p), (normal_of_Z 1000), mul_normal;
    [ | assumption | reflexivity
      | change (2 ^ 53) with 9007199254740992; lia ].
  unfold Date.new, Date.TimeClip.
  rewrite abs_gt_Z_normal, truncate_normal by (assumption || lia).
  destruct (Z.ltb_spec 8640000000000000 (Zpos (p * 1000))) as [ H | _ ].
  - rewrite Pos2Z.inj_mul in H. lia.
  - now rewrite Pos2Z.inj_mul.
Qed.

Lemma clock_of_date (n : Z) :
  padStart (pretty ((n * 1000 / Date.msPerHour) mod 24)) 2 "0" +:+ ":"
  +:+ padStart (pretty ((n * 1000 / Date.msPerMinute) mod 60)) 2 "0" +:+ ":"
  +:+ padStart (pretty ((n * 1000 / Date.msPerSecond) mod 60)) 2 "0" +:+ "."
  +:+ padStart (pretty ((n * 1000) mod Date.msPerSecond)) 3 "0"
  = clock n.
Proof.
  unfold clock, Date.msPerHour, Date.msPerMinute, Date.msPerSecond.
  change 3600000 with (3600 * 1000). change 60000 with (60 * 1000).
  rewrite !Z.div_mul_cancel_r by lia.
  rewrite Z.div_mul, Z.mod_mul by lia. reflexivity.
Qed.

(** X18. For a field that holds a string of decimal digits, the number [n]
    of seconds that the digits denote being within the range of a date,
    the string converts to the Number [n], for [parseFloat] and for the
    arithmetic alike, the product by 1000 is exact, and [formatTime]
    writes the time of day of [n] seconds, with the hours modulo 24 and
    000 milliseconds. *)
Theorem formatTime_whole_seconds (s : string) (n : Z) :
  list_ascii_of_string s <> [] ->
  Forall (fun c => is_digit c = true) (list_ascii_of_string s) ->
  n = digits_value (list_ascii_of_string s) ->
  n <= 8640000000000 ->
  to_number (Str s) = of_Z n
  /\ parseFloat (Str s) = of_Z n
  /\ Date.new (mul (to_number (Str s)) (of_Z 1000)) = Some (n * 1000)
  /\ formatTime (Str s) = clock n
  /\ formatTime (of_Z n) = clock n.
Proof.
  intros Hne Hds -> Hn.
  set (ds := list_ascii_of_string s) in *.
  assert (H0 : 0 <= digits_value ds)
    by (apply fold_digits_nonneg; [ assumption | lia ]).
  assert (Hlit := decimal_literal_digits ds Hne Hds).
  rewrite of_decimal_whole in Hlit
    by (change (2 ^ 53) with 9007199254740992; lia).
  assert (Hnum : to_number (Str s) = of_Z (digits_value ds)).
  { unfold to_number, value_ToNumber, StringToNumber. fold ds.
    rewrite (trim_digits ds Hds).
    destruct ds as [ | c ds' ] eqn:Hd; [ congruence | ].
    now rewrite (decimal_not_non_decimal _ _ Hlit), Hlit. }
  assert (Hpf : parseFloat (Str s) = of_Z (digits_value ds)).
  { unfold parseFloat, Text.parseFloat. simpl ToString. fold ds.
    now rewrite (trim_start_digits ds Hds), Hlit. }
  assert (Hdate := date_of_whole_seconds (digits_value ds) (conj H0 Hn)).
  split; [ exact Hnum | ]. split; [ exact Hpf | ].
  split; [ now rewrite Hnum | ]. split.
  - unfold formatTime. rewrite Hnum, Hdate. apply clock_of_date.
  - unfold formatTime.
    change (to_number (of_Z (digits_value ds))) with (of_Z (digits_value ds)).
    rewrite Hdate. apply clock_of_date.
Qed.

Lemma formatTime_whole_seconds_witness :
  to_number (Str "3661") = of_Z 3661
  /\ parseFloat (Str "3661") = of_Z 3661
  /\ Date.new (mul (to_number (Str "3661")) (of_Z 1000)) = Some (3661 * 1000)
  /\ formatTime (Str "3661") = clock 3661
  /\ formatTime (of_Z 3661) = clock 3661.
Proof.
  apply (formatTime_whole_seconds "3661" 3661).
  - discriminate.
  - repeat constructor.
  - reflexivity.
  - lia.
Defined.

(** C7, as the code has it. The hours field is the count of hours modulo
    24: for an input whose time value is [tv] milliseconds, [formatTime]
    starts with the two digits of [floor (tv / 3600000) mod 24], which is
    below 24, and an input whose time value is [tv + 86400000]
    milliseconds gives the same string. This is the case of every whole
    number [n] of seconds and of [n + 86400], within the range of a date:
    their time values are [n * 1000] and [n * 1000 + 86400000], and both
    give the time of day of [n] seconds. *)
Theorem formatTime_hours_modulo_24 {A B : Type} `{ToNumber A} `{ToNumber B}
    (x : A) (y : B) (tv n : Z) :
  Date.new (mul (to_number x) (of_Z 1000)) = Some tv ->
  Date.new (mul (to_number y) (of_Z 1000)) = Some (tv + Date.msPerDay) ->
  0 <= n ->
  n + 86400 <= 8640000000000 ->
  ((exists rest,
       formatTime x
       = padStart (pretty ((tv / Date.msPerHour) mod 24)) 2 "0" +:+ rest)
   /\ 0 <= (tv / Date.msPerHour) mod 24 < 24
   /\ formatTime y = formatTime x)
  /\ (Date.new (mul (of_Z n) (of_Z 1000)) = Some (n * 1000)
      /\ Date.new (mul (of_Z (n + 86400)) (of_Z 1000))
         = Some (n * 1000 + Date.msPerDay)
      /\ formatTime (of_Z n) = clock n
      /\ formatTime (of_Z (n + 86400)) = clock n).
Proof.
  intros Hx Hy Hn0 Hn1.
  assert (Hd0 := date_of_whole_seconds n ltac:(lia)).
  assert (Hd1 := date_of_whole_seconds (n + 86400) ltac:(lia)).
  replace ((n + 86400) * 1000) with (n * 1000 + Date.msPerDay) in Hd1
    by (unfold Date.msPerDay; lia).
  split.
  - unfold formatTime. rewrite Hx, Hy. simpl.
    destruct (div_one_day tv) as (-> & -> & -> & ->).
    split; [ eauto | ]. split; [ | reflexivity ].
    apply Z.mod_pos_bound. lia.
  - split; [ exact Hd0 | ]. split; [ exact Hd1 | ].
    unfold formatTime.
    change (to_number (of_Z n)) with (of_Z n).
    change (to_number (of_Z (n + 86400))) with (of_Z (n + 86400)).
    rewrite Hd0, Hd1. simpl.
    destruct (div_one_day (n * 1000)) as (-> & -> & -> & ->).
    split; apply clock_of_date.
Qed.

Lemma formatTime_hours_modulo_24_witness :
  ((exists rest,
       formatTime (Str "3600.5")
       = padStart (pretty ((3600500 / Date.msPerHour) mod 24)) 2 "0" +:+ rest)
   /\ 0 <= (3600500 / Date.msPerHour) mod 24 < 24
   /\ formatTime (Str "90000.5") = formatTime (Str "3600.5"))
  /\ (Date.new (mul (of_Z 3661) (of_Z 1000)) = Some (3661 * 1000)
      /\ Date.new (mul (of_Z (3661 + 86400)) (of_Z 1000))
         = Some (3661 * 1000 + Date.msPerDay)
      /\ formatTime (of_Z 3661) = clock 3661
      /\ formatTime (of_Z (3661 + 86400)) = clock 3661).
Proof.
  apply (formatTime_hours_modulo_24 (Str "3600.5") (Str "90000.5")
           3600500 3661).
  - vm_compute. reflexivity.
  - vm_compute. reflexivity.
  - lia.
  - lia.
Defined.
